(** * Icarus: the game orchestrator of the red team / blue team cyber range

    A shallow embedding of the orchestrator code of docs/SPECIFICATION.md
    (class [GameOrchestrator], the agents' [update_memory], the command
    safety snippet) and of the database schema, with the properties of the
    sandbox executor, the scoring path, the round loop, the phase table and
    the command denylist. *)

From Stdlib Require Import ZArith List String Ascii Bool Lia FinFun.
From Equations Require Import Equations.
Import ListNotations.

Local Open Scope string_scope.
Local Open Scope Z_scope.

(* ===================================================================== *)
(** * Python strings *)
(* ===================================================================== *)

Module Py.

(** [s.startswith(prefix)] *)
Fixpoint startswith (s prefix : string) {struct prefix} : bool :=
  match prefix, s with
  | EmptyString, _ => true
  | String _ _, EmptyString => false
  | String p prefix', String c s' => Ascii.eqb c p && startswith s' prefix'
  end.

(** [needle in haystack] on two [str]: [needle] occurs in [haystack] as a
    contiguous run of characters, tried at every offset from the left. *)
Fixpoint str_in (needle haystack : string) : bool :=
  match haystack with
  | EmptyString => startswith haystack needle
  | String _ rest => startswith haystack needle || str_in needle rest
  end.

(** The relation [str_in] decides, stated on concatenation. *)
Definition substring_of (needle haystack : string) : Prop :=
  exists before after, haystack = before ++ needle ++ after.

(** Truthiness of a [str] / [bytes] value: empty is falsy. *)
Definition truthy (s : string) : bool :=
  match s with EmptyString => false | String _ _ => true end.

End Py.

(* ===================================================================== *)
(** * Command safety (docs/SPECIFICATION.md, "Command Safety") *)
(* ===================================================================== *)

Module Safety.

Definition BLOCKED_COMMANDS : list string :=
  [ "rm -rf /"          (* Destructive commands *)
  ; "dd"                (* Disk operations *)
  ; ":(){ :|:& };:"     (* Fork bombs *)
  ].

(** The [for blocked in ...: if blocked in command: return False] loop, over
    any blocklist; falling off the end returns [True]. *)
Fixpoint validate_against (blocklist : list string) (command : string) : bool :=
  match blocklist with
  | [] => true
  | blocked :: rest =>
      if Py.str_in blocked command then false
      else validate_against rest command
  end.

Definition validate_command (command : string) : bool :=
  validate_against BLOCKED_COMMANDS command.

(** A command matches the denylist when some configured entry occurs in it. *)
Definition matches_denylist (command : string) : Prop :=
  exists blocked, In blocked BLOCKED_COMMANDS /\ Py.substring_of blocked command.

End Safety.

(* ===================================================================== *)
(** * Game phases (docs/SPECIFICATION.md, "Game Phases") *)
(* ===================================================================== *)

Module Phases.

Inductive Phase : Type :=
| reconnaissance
| initial_access
| privilege_escalation
| mission_completion.

Definition phase_label (p : Phase) : string :=
  match p with
  | reconnaissance => "reconnaissance"
  | initial_access => "initial access"
  | privilege_escalation => "privilege escalation"
  | mission_completion => "mission completion"
  end.

(** One row of the phase-range table: "Phase k: Label (Rounds lo-hi)". *)
Record PhaseRange : Type := mkRange {
  first_round : Z;
  last_round : Z;
  phase : Phase
}.

Definition PHASE_TABLE : list PhaseRange :=
  [ mkRange 1 5 reconnaissance
  ; mkRange 6 15 initial_access
  ; mkRange 16 25 privilege_escalation
  ; mkRange 26 30 mission_completion ].

Definition covers (round_number : Z) (r : PhaseRange) : bool :=
  (first_round r <=? round_number) && (round_number <=? last_round r).

(** The final configured phase; the default is only read on an empty table. *)
Definition final_phase (table : list PhaseRange) (default : Phase) : Phase :=
  last (map phase table) default.

(** Modelled from the spec: [GameOrchestrator.get_current_phase], which the
    loop calls and the repository does not define.  The spec gives its
    contract as [phase_for(round_number) -> Phase] over the phase-range
    table: the phase whose range contains the round number, and the final
    configured phase when no range does. *)
Definition phase_for_table (table : list PhaseRange) (round_number : Z) : Phase :=
  match find (covers round_number) table with
  | Some r => phase r
  | None => final_phase table reconnaissance
  end.

Definition phase_for (round_number : Z) : Phase :=
  phase_for_table PHASE_TABLE round_number.

(** Ranges in ascending order, pairwise disjoint, each non-empty. *)
Fixpoint ordered_from (low : Z) (table : list PhaseRange) : Prop :=
  match table with
  | [] => True
  | r :: rest =>
      low < first_round r /\ first_round r <= last_round r /\
      ordered_from (last_round r) rest
  end.

End Phases.

(* ===================================================================== *)
(** * Python exceptions and the effect monad *)
(* ===================================================================== *)

Module Effects.

(** Exceptions a call may raise, all of them instances of [Exception] (what
    [except Exception] catches); each carries the text [str(e)] yields. *)
Inductive exn : Type :=
| NotFound (msg : string)            (* docker.errors.NotFound *)
| APIError (msg : string)            (* docker.errors.APIError *)
| ReadTimeout (msg : string)         (* the exec call ran past its timeout *)
| UnicodeDecodeError (msg : string)  (* bytes.decode() *)
| OtherError (msg : string).

Definition str (e : exn) : string :=
  match e with
  | NotFound msg | APIError msg | ReadTimeout msg
  | UnicodeDecodeError msg | OtherError msg => msg
  end.

Inductive outcome (A : Type) : Type :=
| Returned (a : A)
| Raised (e : exn).
Arguments Returned {A} a.
Arguments Raised {A} e.

Section Monad.
Variable S : Type.

(** A computation over the state [S] that returns or raises. *)
Definition M (A : Type) : Type := S -> outcome A * S.

Definition ret {A} (a : A) : M A := fun s => (Returned a, s).

Definition raise {A} (e : exn) : M A := fun s => (Raised e, s).

Definition bind {A B} (m : M A) (k : A -> M B) : M B :=
  fun s =>
    match m s with
    | (Returned a, s') => k a s'
    | (Raised e, s') => (Raised e, s')
    end.

(** [try: body / except Exception as e: handler e].  What the body did to
    the state before it raised stays done. *)
Definition try_except {A} (body : M A) (handler : exn -> M A) : M A :=
  fun s =>
    match body s with
    | (Returned a, s') => (Returned a, s')
    | (Raised e, s') => handler e s'
    end.

Definition gets {A} (f : S -> A) : M A := fun s => (Returned (f s), s).

Definition modify (f : S -> S) : M unit := fun s => (Returned tt, f s).

(** A value that is either there or a raise, with no effect on the state. *)
Definition lift_result {A} (r : outcome A) : M A := fun s => (r, s).
End Monad.

Arguments bind {S A B} m k.
Arguments try_except {S A} body handler.
Arguments modify {S} f.
Arguments ret {S A} a.
Arguments raise {S A} e.
Arguments gets {S A} f.
Arguments lift_result {S A} r.

Declare Scope monad_scope.
Delimit Scope monad_scope with monad.
Notation "x <- m ;; k" := (bind m (fun x => k))
  (at level 61, m at next level, right associativity) : monad_scope.
Notation "' pat <- m ;; k" := (bind m (fun x => match x with pat => k end))
  (at level 61, pat pattern, m at next level, right associativity) : monad_scope.
Notation "m ;; k" := (bind m (fun _ => k))
  (at level 61, right associativity) : monad_scope.

End Effects.

(* ===================================================================== *)
(** * Dictionaries the orchestrator passes around *)
(* ===================================================================== *)

Module Dicts.

(** The dict [execute_in_container] returns. *)
Record CommandResult : Type := mkCommandResult {
  exit_code : Z;
  stdout : string;
  stderr : string
}.

(** The dict a team's turn returns; only the red turn sets ['phase']. *)
Record TurnResult : Type := mkTurnResult {
  observation : string;
  reasoning : string;
  action : string;
  result : string;
  success : bool;
  execution_time_ms : Z;
  phase : option string
}.

Inductive Team : Type := red | blue.

Definition team_name (t : Team) : string :=
  match t with red => "red" | blue => "blue" end.

Definition team_eqb (a b : Team) : bool :=
  match a, b with
  | red, red | blue, blue => true
  | _, _ => false
  end.

End Dicts.

(* ===================================================================== *)
(** * The game database (schema of the [games], [rounds], [command_log],
      [telemetry] and [events] tables) *)
(* ===================================================================== *)

Module Db.
Import Dicts.

(** Keys are [UUID]s drawn by [gen_random_uuid()]; here the next unused
    number of a counter the database holds. *)
Definition UUID : Type := nat.

Module Games.
Record row : Type := mk {
  game_id : UUID;
  red_team_model : string;
  blue_team_model : string;
  scenario : string;
  red_score : Z;                 (* INT DEFAULT 0 *)
  blue_score : Z;                (* INT DEFAULT 0 *)
  winner : option string;
  status : string                (* NOT NULL DEFAULT 'running' *)
}.
End Games.

Module Rounds.
Record row : Type := mk {
  round_id : UUID;
  game_id : option UUID;
  round_number : Z;
  phase : string;
  red_observation : string;
  red_reasoning : string;
  red_action : string;
  red_result : string;
  red_success : bool;
  red_points_earned : Z;         (* INT DEFAULT 0 *)
  red_execution_time_ms : Z;
  blue_observation : string;
  blue_reasoning : string;
  blue_action : string;
  blue_result : string;
  blue_success : bool;
  blue_points_earned : Z;        (* INT DEFAULT 0 *)
  blue_execution_time_ms : Z
}.
End Rounds.

Module CommandLog.
Record row : Type := mk {
  log_id : UUID;
  round_id : option UUID;        (* UUID REFERENCES rounds(round_id) *)
  game_id : option UUID;         (* UUID REFERENCES games(game_id) *)
  team : Team;                   (* NOT NULL *)
  container : string;            (* NOT NULL *)
  command : string;              (* NOT NULL *)
  exit_code : option Z;
  stdout : option string;
  stderr : option string;
  execution_time_ms : option Z;
  working_directory : option string
}.
End CommandLog.

Module Telemetry.
Record row : Type := mk {
  telemetry_id : UUID;
  round_id : option UUID;        (* UUID REFERENCES rounds(round_id) *)
  game_id : option UUID;         (* UUID REFERENCES games(game_id) *)
  metric_type : string;          (* NOT NULL *)
  metric_data : string;          (* JSONB NOT NULL *)
  anomaly_detected : bool;       (* DEFAULT FALSE *)
  severity : option string;
  source_container : option string
}.
End Telemetry.

Module Events.
Record row : Type := mk {
  event_id : UUID;
  game_id : option UUID;
  round_id : UUID;
  event_type : string;
  team : Team;
  description : string;
  points_awarded : Z             (* INT DEFAULT 0 *)
}.
End Events.

(** Tables hold their rows in insertion order. *)
Record Database : Type := mkDatabase {
  games : list Games.row;
  rounds : list Rounds.row;
  command_log : list CommandLog.row;
  telemetry : list Telemetry.row;
  events : list Events.row;
  next_uuid : UUID
}.

Definition empty : Database := mkDatabase [] [] [] [] [] 0%nat.

(** [WHERE game_id = gid]; a NULL [gid] matches no row. *)
Definition same_game (gid : option UUID) (id : UUID) : bool :=
  match gid with
  | Some g => Nat.eqb g id
  | None => false
  end.

Definition same_game_opt (gid : option UUID) (id : option UUID) : bool :=
  match id with
  | Some i => same_game gid i
  | None => false
  end.

(** Modelled from the spec: [GameDatabase.create_game], absent from the
    repository.  The spec's Game is created at game start with cumulative
    scores initialised to 0 and status running; the schema gives the same
    column defaults. *)
Definition create_game (red_team_model blue_team_model scenario : string)
    (d : Database) : UUID * Database :=
  let id := next_uuid d in
  (id,
   mkDatabase
     (games d ++ [Games.mk id red_team_model blue_team_model scenario 0 0 None "running"])
     (rounds d) (command_log d) (telemetry d) (events d) (S id)).

(** Modelled from the spec: [GameDatabase.log_round], absent from the
    repository.  The spec's [append_round(round) -> RoundId] persists one
    Round record: the per-side fields are those of the two turn dicts, the
    phase is the one whose range contains the round number, and the
    points-earned columns, for which the dicts hold nothing, take the
    schema's default 0. *)
Definition log_round (game_id : option UUID) (round_num : Z)
    (red_data blue_data : TurnResult) (d : Database) : UUID * Database :=
  let id := next_uuid d in
  (id,
   mkDatabase (games d)
     (rounds d ++
      [Rounds.mk id game_id round_num
         (Phases.phase_label (Phases.phase_for round_num))
         (observation red_data) (reasoning red_data) (action red_data)
         (result red_data) (success red_data) 0 (execution_time_ms red_data)
         (observation blue_data) (reasoning blue_data) (action blue_data)
         (result blue_data) (success blue_data) 0 (execution_time_ms blue_data)])
     (command_log d) (telemetry d) (events d) (S id)).

(** The [command_log] and [telemetry] tables are written through
    [GameDatabase.log_command] and [GameDatabase.log_telemetry] only.  The
    repository defines neither method and nothing describes what they store
    (the callers pass the integer round counter as [round_id], where the
    schema has a UUID key of [rounds]), so what a call makes of its table is
    left to the collaborators of [Game.Externals]; the database takes the
    table the call leaves and keeps every other table. *)
Definition with_command_log (rows : list CommandLog.row) (d : Database) : Database :=
  mkDatabase (games d) (rounds d) rows (telemetry d) (events d) (next_uuid d).

Definition with_telemetry (rows : list Telemetry.row) (d : Database) : Database :=
  mkDatabase (games d) (rounds d) (command_log d) rows (events d) (next_uuid d).

Definition add_points (team : Team) (points : Z) (g : Games.row) : Games.row :=
  match team with
  | red =>
      Games.mk (Games.game_id g) (Games.red_team_model g) (Games.blue_team_model g)
        (Games.scenario g) (Games.red_score g + points) (Games.blue_score g)
        (Games.winner g) (Games.status g)
  | blue =>
      Games.mk (Games.game_id g) (Games.red_team_model g) (Games.blue_team_model g)
        (Games.scenario g) (Games.red_score g) (Games.blue_score g + points)
        (Games.winner g) (Games.status g)
  end.

(** Modelled from the spec: [GameDatabase.update_score], absent from the
    repository.  The spec's [update_scores(game_id, deltas)] applies a signed
    delta to the Game's running total of the side; no floor is enforced. *)
Definition update_score (game_id : option UUID) (team : Team) (points : Z)
    (d : Database) : Database :=
  mkDatabase
    (map (fun g => if same_game game_id (Games.game_id g)
                   then add_points team points g else g) (games d))
    (rounds d) (command_log d) (telemetry d) (events d) (next_uuid d).

(** Modelled from the spec: [GameDatabase.record_event], absent from the
    repository.  The spec's [append_event(event)] records one immutable
    Event row: kind, owning side, point delta, originating round,
    description; the table is append-only. *)
Definition record_event (game_id : option UUID) (round_id : UUID)
    (event_type : string) (team : Team) (description : string) (points : Z)
    (d : Database) : Database :=
  mkDatabase (games d) (rounds d) (command_log d) (telemetry d)
    (events d ++
     [Events.mk (next_uuid d) game_id round_id event_type team description points])
    (S (next_uuid d)).

Definition lastn {A} (n : nat) (l : list A) : list A :=
  skipn (List.length l - n)%nat l.

(** Modelled from the spec: [GameDatabase.get_recent_context], absent from
    the repository.  The spec's [read_recent(game_id, side, limit)] returns
    the prior turns of the game, most recent last, at most [limit] of them. *)
Definition get_recent_context (game_id : option UUID) (team : Team) (limit : nat)
    (d : Database) : list Rounds.row :=
  lastn limit (filter (fun r => same_game_opt game_id (Rounds.game_id r)) (rounds d)).

Definition mark_completed (g : Games.row) : Games.row :=
  Games.mk (Games.game_id g) (Games.red_team_model g) (Games.blue_team_model g)
    (Games.scenario g) (Games.red_score g) (Games.blue_score g)
    (Games.winner g) "completed".

(** Modelled from the spec: what [GameOrchestrator.end_game], absent from
    the repository, writes.  The spec's Game goes from running to completed
    when the loop ends; scores and events are left as the rounds made them. *)
Definition complete_game (game_id : option UUID) (d : Database) : Database :=
  mkDatabase
    (map (fun g => if same_game game_id (Games.game_id g)
                   then mark_completed g else g) (games d))
    (rounds d) (command_log d) (telemetry d) (events d) (next_uuid d).

(** ** Queries the properties are stated with *)

(** [SELECT SUM(points_awarded) FROM events WHERE game_id = gid AND team = t] *)
Definition event_points (gid : UUID) (t : Team) (evs : list Events.row) : Z :=
  fold_right Z.add 0
    (map Events.points_awarded
       (filter (fun e => same_game_opt (Some gid) (Events.game_id e)
                         && team_eqb (Events.team e) t) evs)).

Definition cumulative_score (t : Team) (g : Games.row) : Z :=
  match t with
  | red => Games.red_score g
  | blue => Games.blue_score g
  end.

(** Every Game's cumulative score of each side is the sum of the point
    deltas of the Events recorded for that Game and side. *)
Definition scores_consistent (d : Database) : Prop :=
  forall g, In g (games d) ->
  forall t, cumulative_score t g = event_points (Games.game_id g) t (events d).

(** Keys in use lie below the counter, so a key drawn next is fresh. *)
Definition keys_below_counter (d : Database) : Prop :=
  (forall g, In g (games d) -> (Games.game_id g < next_uuid d)%nat) /\
  (forall e gid, In e (events d) -> Events.game_id e = Some gid ->
                 (gid < next_uuid d)%nat) /\
  (forall r gid, In r (rounds d) -> Rounds.game_id r = Some gid ->
                 (gid < next_uuid d)%nat).

(** [SELECT round_number FROM rounds WHERE game_id = gid], in insertion order *)
Definition round_numbers (gid : option UUID) (d : Database) : list Z :=
  map Rounds.round_number
    (filter (fun r => same_game_opt gid (Rounds.game_id r)) (rounds d)).

(** The round numbers [a+1, ..., b]. *)
Definition round_span (a b : Z) : list Z :=
  map (fun i => a + Z.of_nat i) (seq 1 (Z.to_nat (b - a))).

(** [d'] is [d] after some logging: games, rounds and events are the same,
    keys may have been drawn. *)
Definition logged (d d' : Database) : Prop :=
  games d' = games d /\ rounds d' = rounds d /\ events d' = events d /\
  (next_uuid d <= next_uuid d')%nat.

End Db.

(* ===================================================================== *)
(** * The orchestrator (docs/SPECIFICATION.md, "Core Orchestrator Class") *)
(* ===================================================================== *)

Module Game.
Import Dicts Db Effects.
Local Open Scope monad_scope.
Set Implicit Arguments.

(** The dict [RedTeamAgent.decide_action] returns. *)
Module Decision.
Record t : Type := mk {
  reasoning : string;
  command : string;
  expected_outcome : string;
  phase : option string
}.
End Decision.

(** The dict [BlueTeamAgent.decide_defense] returns. *)
Module Defense.
Record t : Type := mk {
  threat_assessment : string;
  reasoning : string;
  defensive_action : string
}.
End Defense.

(** [config.get('max_rounds', 30)] reads the one key the orchestrator uses. *)
Record Config : Type := mkConfig { max_rounds : option Z }.

(** The attributes of [self] that [start_game] and [run_game_loop] assign
    and every other method only reads. *)
Record Self : Type := mkSelf {
  current_game_id : option UUID;
  round_number : Z
}.

(** Modelled from the spec: [GameOrchestrator.get_current_phase], called by
    the loop and absent from the repository: the spec's [phase_for] at the
    orchestrator's round counter. *)
Definition get_current_phase (self : Self) : Phases.Phase :=
  Phases.phase_for (round_number self).

(** [self.round_number += 1] *)
Definition next_round (self : Self) : Self :=
  mkSelf (current_game_id self) (round_number self + 1).

(** A container object of the Docker SDK, known by its name. *)
Definition Container : Type := string.

(** The program of an exec call: [cmd=['bash', '-c', command]]. *)
Definition bash_c (command : string) : list string := ["bash"; "-c"; command].

Definition COMMAND_TIMEOUT : Z := 30.

Section WithWorld.

(** Everything outside the orchestrator process: the two workloads, the
    Docker daemon, the agents' remote model, the wall clock. *)
Variable W : Type.

(** What the methods below act on: the outside world and the database. *)
Record Store : Type := mkStore {
  world : W;
  db : Database
}.

(** The collaborators the orchestrator calls and the repository does not
    define.  The Docker SDK calls return or raise; the agents, the detectors
    and the two logging calls of the database are taken to return. *)
Record Externals : Type := mkExternals {
  (* self.docker_client.containers.get(name) *)
  containers_get : string -> W -> outcome Container * W;
  (* container_obj.exec_run(cmd=..., demux=..., timeout=...):
     the exit code and the (stdout, stderr) byte streams, each possibly None *)
  exec_run : Container -> list string -> bool -> Z -> W ->
             outcome (Z * (option string * option string)) * W;
  (* bytes.decode() *)
  decode : string -> outcome string;
  (* time.time(), in milliseconds *)
  time_ms : W -> Z;
  (* self.red_agent *)
  red_model : string;
  observe_environment : W -> string * W;
  decide_action : string -> list Rounds.row -> W -> Decision.t * W;
  (* self.blue_agent *)
  blue_model : string;
  monitor_system : W -> string * W;
  decide_defense : string -> list Rounds.row -> W -> Defense.t * W;
  (* the event detectors of evaluate_round *)
  detect_port_scan : TurnResult -> bool;
  detect_service_identification : TurnResult -> bool;
  detect_shell_access : TurnResult -> bool;
  detect_attack_blocked : TurnResult -> bool;
  detect_ip_blocked : TurnResult -> bool;
  detect_service_down : TurnResult -> bool;
  (* self.db.log_command(round_id=..., team=..., container=..., command=...,
                          result=..., execution_time_ms=...):
     the command_log table the call leaves *)
  log_command : Z -> Team -> string -> string -> CommandResult -> Z ->
                Database -> list CommandLog.row;
  (* self.db.log_telemetry(round_id=..., metrics=...):
     the telemetry table the call leaves *)
  log_telemetry : Z -> string -> Database -> list Telemetry.row;
  (* self.check_game_over() *)
  check_game_over : Self -> Store -> bool;
  (* self.start_containers(), self.setup_scenario(scenario) *)
  start_containers : W -> W;
  setup_scenario : string -> W -> W
}.

Variable ext : Externals.

Definition M (A : Type) : Type := Effects.M Store A.

(** ** Calls that leave the process *)

Definition sdk {A} (call : W -> outcome A * W) : M A :=
  fun s => let (r, w) := call (world s) in (r, mkStore w (db s)).

Definition collaborator {A} (call : W -> A * W) : M A :=
  fun s => let (a, w) := call (world s) in (Returned a, mkStore w (db s)).

Definition clock : M Z := gets (fun s => time_ms ext (world s)).

Definition db_query {A} (q : Database -> A) : M A := gets (fun s => q (db s)).

Definition db_exec (f : Database -> Database) : M unit :=
  modify (fun s => mkStore (world s) (f (db s))).

Definition db_insert {A} (f : Database -> A * Database) : M A :=
  fun s => let (a, d) := f (db s) in (Returned a, mkStore (world s) d).

(** ** execute_in_container *)

(** [stream.decode() if stream else ""] *)
Definition decode_stream (stream : option string) : M string :=
  match stream with
  | Some bytes => if Py.truthy bytes then lift_result (decode ext bytes) else ret ""
  | None => ret ""
  end.

Definition execute_in_container (container command : string) : M CommandResult :=
  try_except
    (container_obj <- sdk (containers_get ext container) ;;
     '(exit_code, output) <-
        sdk (exec_run ext container_obj (bash_c command) true COMMAND_TIMEOUT) ;;
     stdout <- decode_stream (fst output) ;;
     stderr <- decode_stream (snd output) ;;
     ret (mkCommandResult exit_code stdout stderr))
    (fun e => ret (mkCommandResult (-1) "" (str e))).

(** A sandbox-level fault of the call: the workload is not found, or the
    exec call raises (transport error, timeout). *)
Definition sandbox_fault (container command : string) (s : Store) : Prop :=
  (exists e w, containers_get ext container (world s) = (Raised e, w)) \/
  (exists c w e w',
      containers_get ext container (world s) = (Returned c, w) /\
      exec_run ext c (bash_c command) true COMMAND_TIMEOUT w = (Raised e, w')).

(** ** The two turns *)

Definition execute_red_team_turn (self : Self) : M TurnResult :=
  observation <- collaborator (observe_environment ext) ;;
  history <- db_query (get_recent_context (current_game_id self) red 10) ;;
  decision <- collaborator (decide_action ext observation history) ;;
  start_time <- clock ;;
  result <- execute_in_container "red-kali" (Decision.command decision) ;;
  end_time <- clock ;;
  let execution_time := end_time - start_time in
  db_exec (fun d =>
             with_command_log
               (log_command ext (round_number self) red "red-kali"
                  (Decision.command decision) result execution_time d) d) ;;
  ret (mkTurnResult observation
         (Decision.reasoning decision)
         (Decision.command decision)
         (stdout result ++ stderr result)
         (exit_code result =? 0)
         execution_time
         (Some (match Decision.phase decision with
                | Some p => p
                | None => "unknown"
                end))).

Definition execute_blue_team_turn (self : Self) : M TurnResult :=
  telemetry <- collaborator (monitor_system ext) ;;
  history <- db_query (get_recent_context (current_game_id self) blue 10) ;;
  defense <- collaborator (decide_defense ext telemetry history) ;;
  '(result, execution_time) <-
     (if negb (String.eqb (Defense.defensive_action defense) "none") then
        start_time <- clock ;;
        result <- execute_in_container "blue-target" (Defense.defensive_action defense) ;;
        end_time <- clock ;;
        ret (result, end_time - start_time)
      else ret (mkCommandResult 0 "" "", 0)) ;;
  db_exec (fun d =>
             with_telemetry (log_telemetry ext (round_number self) telemetry d) d) ;;
  ret (mkTurnResult telemetry
         (Defense.reasoning defense)
         (Defense.defensive_action defense)
         (stdout result ++ stderr result)
         (exit_code result =? 0)
         execution_time
         None).

(** ** Scoring *)

Definition award_points (self : Self) (team : Team) (points : Z)
    (event_type : string) (round_id : UUID) : M unit :=
  db_exec (update_score (current_game_id self) team points) ;;
  db_exec (record_event (current_game_id self) round_id event_type team
             (team_name team ++ " team: " ++ event_type) points).

(** [if cond: body] *)
Definition when (cond : bool) (body : M unit) : M unit :=
  if cond then body else ret tt.

Definition evaluate_round (self : Self) (round_id : UUID)
    (red_result blue_result : TurnResult) : M unit :=
  (* Check for red team achievements *)
  when (detect_port_scan ext red_result)
    (award_points self red 10 "port_scan_complete" round_id) ;;
  when (detect_service_identification ext red_result)
    (award_points self red 15 "service_identified" round_id) ;;
  when (detect_shell_access ext red_result)
    (award_points self red 100 "shell_access_gained" round_id) ;;
  (* Check for blue team achievements *)
  when (detect_attack_blocked ext blue_result)
    (award_points self blue 50 "attack_blocked" round_id) ;;
  when (detect_ip_blocked ext blue_result)
    (award_points self blue 75 "attacker_ip_banned" round_id) ;;
  (* Check for penalties *)
  when (detect_service_down ext blue_result)
    (award_points self blue (-50) "service_down" round_id).

(** ** The game loop *)

(** One iteration of the [while] body after the counter is incremented, up
    to the game-over test; returns what [self.check_game_over()] returned. *)
Definition play_round (self : Self) : M bool :=
  red_result <- execute_red_team_turn self ;;
  blue_result <- execute_blue_team_turn self ;;
  round_id <- db_insert (log_round (current_game_id self) (round_number self)
                           red_result blue_result) ;;
  evaluate_round self round_id red_result blue_result ;;
  gets (check_game_over ext self).

(** Modelled from the spec: [GameOrchestrator.end_game], called after the
    loop and absent from the repository: the Game goes from running to
    completed. *)
Definition end_game (self : Self) : M unit :=
  db_exec (complete_game (current_game_id self)).

(** The [while self.round_number < max_rounds] loop with its [break]; an
    exception of the body leaves the loop. *)
Equations? game_loop (max_rounds : Z) (self : Self) (s : Store)
    : outcome unit * (Self * Store)
    by wf (Z.to_nat (max_rounds - round_number self)) lt :=
  game_loop max_rounds self s with Z_lt_dec (round_number self) max_rounds := {
    | right _ => (Returned tt, (self, s))
    | left _ with play_round (next_round self) s := {
        | (Raised e, s') => (Raised e, (next_round self, s'))
        | (Returned true, s') => (Returned tt, (next_round self, s'))
        | (Returned false, s') => game_loop max_rounds (next_round self) s' } }.
Proof. simpl. lia. Qed.

Definition run_game_loop (max_rounds : Z) (self : Self) (s : Store)
    : outcome unit * (Self * Store) :=
  match game_loop max_rounds self s with
  | (Returned _, (self', s')) =>
      let (r, s'') := end_game self' s' in (r, (self', s''))
  | (Raised e, st) => (Raised e, st)
  end.

(** [GameOrchestrator.__init__]: no game yet, round counter at 0. *)
Definition init : Self := mkSelf None 0.

Definition start_game (scenario : string) (config : Config) (self : Self)
    (s : Store) : outcome unit * (Self * Store) :=
  let (game_id, d) :=
    create_game (red_model ext) (blue_model ext) scenario (db s) in
  let self1 := mkSelf (Some game_id) (round_number self) in
  let w1 := setup_scenario ext scenario (start_containers ext (world s)) in
  run_game_loop
    (match max_rounds config with Some n => n | None => 30 end)
    self1 (mkStore w1 d).

End WithWorld.

(** ** RedTeamAgent.update_memory *)

Record MemoryEntry : Type := mkMemoryEntry {
  m_action : Decision.t;
  m_result : CommandResult;
  m_success : bool
}.

(** [self.memory.append({... "success": result.get("exit_code") == 0 ...})] *)
Definition update_memory (memory : list MemoryEntry) (action : Decision.t)
    (result : CommandResult) : list MemoryEntry :=
  memory ++ [mkMemoryEntry action result (exit_code result =? 0)].

Unset Implicit Arguments.
End Game.

(* ===================================================================== *)
(** * Notions the scoring properties are stated with *)
(* ===================================================================== *)

Module Scoring.
Import Dicts Db Game.

(** One call [award_points(team, points, event_type, round_id)]. *)
Definition Award : Type := (Team * Z * string)%type.

Definition if_detected (cond : bool) (a : Award) : list Award :=
  if cond then [a] else [].

(** The awards [evaluate_round] makes for a pair of turn results, in the
    order of its [if] statements. *)
Definition awards {W} (ext : Externals W) (red_result blue_result : TurnResult)
    : list Award :=
  if_detected (detect_port_scan ext red_result) (red, 10, "port_scan_complete") ++
  if_detected (detect_service_identification ext red_result) (red, 15, "service_identified") ++
  if_detected (detect_shell_access ext red_result) (red, 100, "shell_access_gained") ++
  if_detected (detect_attack_blocked ext blue_result) (blue, 50, "attack_blocked") ++
  if_detected (detect_ip_blocked ext blue_result) (blue, 75, "attacker_ip_banned") ++
  if_detected (detect_service_down ext blue_result) (blue, -50, "service_down").

(** What one [award_points] call writes. *)
Definition apply_award (gid : option UUID) (round_id : UUID) (d : Database)
    (a : Award) : Database :=
  let '(team, points, kind) := a in
  record_event gid round_id kind team (team_name team ++ " team: " ++ kind)%string
    points (update_score gid team points d).

Definition apply_awards (gid : option UUID) (round_id : UUID) (l : list Award)
    (d : Database) : Database :=
  fold_left (apply_award gid round_id) l d.

(** The state a round leaves when the turns left the world [w] and the
    database [d1]: [log_round] inserts the Round row, whose key is the next
    one of [d1], and the awards of the round follow. *)
Definition after_round {W} (ext : Externals W) (self : Self) (w : W)
    (d1 : Database) (red_result blue_result : TurnResult) : Store W :=
  mkStore w
    (apply_awards (current_game_id self) (next_uuid d1)
       (awards ext red_result blue_result)
       (snd (log_round (current_game_id self) (round_number self)
               red_result blue_result d1))).

(** The points a list of awards gives one side. *)
Definition total (t : Team) (l : list Award) : Z :=
  fold_right Z.add 0
    (map (fun a : Award => let '(team, points, _) := a in
                           if team_eqb team t then points else 0) l).

(** The award an Event row records. *)
Definition award_of (e : Events.row) : Award :=
  (Events.team e, Events.points_awarded e, Events.event_type e).

Definition kind_of (a : Award) : string := snd a.

(** The Events among [evs] of one side and kind. *)
Definition of_kind (t : Team) (kind : string) (evs : list Events.row)
    : list Events.row :=
  filter (fun e => team_eqb (Events.team e) t
                   && String.eqb (Events.event_type e) kind) evs.

End Scoring.

(* ===================================================================== *)
(** * A small range to run the orchestrator on *)
(* ===================================================================== *)

Module Lab.
Import Dicts Db Effects Game.

(** The world here is the list of programs the workloads have been made to
    run, oldest first. *)
Definition World : Type := list (Container * list string).

Definition script (cmd : list string) : string := nth 2 cmd "".

Definition lab_containers_get (name : string) (w : World) : outcome Container * World :=
  if String.eqb name "red-kali" || String.eqb name "blue-target"
  then (Returned name, w)
  else (Raised (NotFound ("No such container: " ++ name)), w).

(** [sleep 60] runs past the timeout, [false] exits with 1, an [nmap] scan
    prints an open port, anything else prints [done]. *)
Definition lab_exec_run (c : Container) (cmd : list string) (demux : bool)
    (timeout : Z) (w : World)
    : outcome (Z * (option string * option string)) * World :=
  let w' := (w ++ [(c, cmd)])%list in
  if String.eqb (script cmd) "sleep 60" then
    (Raised (ReadTimeout "Read timed out."), w')
  else if String.eqb (script cmd) "false" then
    (Returned (1, (None, None)), w')
  else if Py.startswith (script cmd) "nmap" then
    (Returned (0, (Some "22/tcp open  ssh", None)), w')
  else
    (Returned (0, (Some "done", None)), w').

(** The lab's database files the arguments of a logging call as one more
    row of the table, under no round key. *)
Definition lab_log_command (round_id : Z) (team : Team) (container command : string)
    (res : CommandResult) (execution_time_ms : Z) (d : Database)
    : list CommandLog.row :=
  (command_log d ++
   [CommandLog.mk (List.length (command_log d)) None None team container command
      (Some (exit_code res)) (Some (stdout res)) (Some (stderr res))
      (Some execution_time_ms) None])%list.

Definition lab_log_telemetry (round_id : Z) (metrics : string) (d : Database)
    : list Telemetry.row :=
  (telemetry d ++
   [Telemetry.mk (List.length (telemetry d)) None None "system" metrics false
      None None])%list.

Definition lab : Externals World :=
  mkExternals
    lab_containers_get
    lab_exec_run
    (fun bytes => Returned bytes)
    (fun w => Z.of_nat (List.length w))
    "claude-sonnet-4.5"
    (fun w => ("{}", w))
    (fun _ _ w => (Decision.mk "scan the target" "nmap -sV 172.20.0.10"
                     "open ports" (Some "reconnaissance"), w))
    "claude-sonnet-4.5"
    (fun w => ("{}", w))
    (fun _ _ w => (Defense.mk "low" "nothing to do" "none", w))
    (fun r => Py.str_in "open" (result r))
    (fun _ => false)
    (fun _ => false)
    (fun _ => false)
    (fun _ => false)
    (fun _ => false)
    lab_log_command
    lab_log_telemetry
    (fun _ _ => false)
    (fun w => w)
    (fun _ w => w).

(** The same range with a red agent that asks for a filesystem wipe. *)
Definition reckless : Externals World :=
  mkExternals
    lab_containers_get
    lab_exec_run
    (decode lab)
    (time_ms lab)
    (red_model lab)
    (observe_environment lab)
    (fun _ _ w => (Decision.mk "wipe the target" "rm -rf /" "nothing left"
                     (Some "reconnaissance"), w))
    (blue_model lab)
    (monitor_system lab)
    (decide_defense lab)
    (detect_port_scan lab)
    (detect_service_identification lab)
    (detect_shell_access lab)
    (detect_attack_blocked lab)
    (detect_ip_blocked lab)
    (detect_service_down lab)
    (log_command lab)
    (log_telemetry lab)
    (check_game_over lab)
    (start_containers lab)
    (setup_scenario lab).

Definition fresh : Store World := mkStore [] Db.empty.

(** The same range when no output of the workloads is valid text. *)
Definition garbled : Externals World :=
  mkExternals
    lab_containers_get
    lab_exec_run
    (fun _ => Raised (UnicodeDecodeError "invalid start byte"))
    (time_ms lab)
    (red_model lab)
    (observe_environment lab)
    (decide_action lab)
    (blue_model lab)
    (monitor_system lab)
    (decide_defense lab)
    (detect_port_scan lab)
    (detect_service_identification lab)
    (detect_shell_access lab)
    (detect_attack_blocked lab)
    (detect_ip_blocked lab)
    (detect_service_down lab)
    (log_command lab)
    (log_telemetry lab)
    (check_game_over lab)
    (start_containers lab)
    (setup_scenario lab).



(** A database with one running game, key 0. *)
Definition one_game : Store World :=
  mkStore []
    (snd (create_game "claude-sonnet-4.5" "claude-sonnet-4.5" "dvwa_scenario" Db.empty)).

End Lab.

(* ===================================================================== *)
(** * The scoring tables and the phase limits of the document
      (docs/SPECIFICATION.md, "Scoring System" and "Game Phases") *)
(* ===================================================================== *)

Module Tables.
Import Dicts.

(** "Red Team Point Values": achievement, points. *)
Definition RED_TEAM_POINT_VALUES : list (string * Z) :=
  [ ("Port scan complete", 10)
  ; ("Service identified", 15)
  ; ("Vulnerability found", 25)
  ; ("Valid credentials obtained", 50)
  ; ("Shell access gained", 100)
  ; ("Privilege escalation", 150)
  ; ("Persistence established", 200)
  ; ("Data exfiltration", 300) ].

(** "Blue Team Point Values": achievement, points. *)
Definition BLUE_TEAM_POINT_VALUES : list (string * Z) :=
  [ ("Attack detected", 25)
  ; ("Attack blocked", 50)
  ; ("Attacker IP banned", 75)
  ; ("Vulnerability patched", 100)
  ; ("Service maintained", 10)
  ; ("Forensics complete", 150)
  ; ("Recovery complete", 200) ].

(** "Penalties": penalty, points, the teams it applies to. *)
Definition PENALTIES : list (string * Z * list Team) :=
  [ ("Service down", -50, [blue])
  ; ("Detected by blue team", -25, [red])
  ; ("False positive alert", -10, [blue])
  ; ("Command timeout", -5, [red; blue])
  ; ("Invalid command syntax", -10, [red; blue]) ].

(** The event type a table row is recorded under: the row's name in lower
    case with underscores for spaces, as in ['port_scan_complete']. *)
Definition snake_char (c : ascii) : ascii :=
  let n := nat_of_ascii c in
  if Nat.eqb n 32 then "_"%char
  else if (Nat.leb 65 n && Nat.leb n 90)%bool then ascii_of_nat (n + 32)
  else c.

Fixpoint snake (name : string) : string :=
  match name with
  | EmptyString => EmptyString
  | String c rest => String (snake_char c) (snake rest)
  end.

(** The rows of the tables that apply to a team, as (event type, points). *)
Definition rows_for (t : Team) : list (string * Z) :=
  map (fun row : string * Z => (snake (fst row), snd row))
    (match t with
     | red => RED_TEAM_POINT_VALUES
     | blue => BLUE_TEAM_POINT_VALUES
     end)
  ++ map (fun row : string * Z * list Team => (snake (fst (fst row)), snd (fst row)))
       (filter (fun row : string * Z * list Team => existsb (team_eqb t) (snd row))
          PENALTIES).

(** "Time Limit: ... or n rounds" of each phase. *)
Definition PHASE_ROUND_LIMITS : list (Phases.Phase * Z) :=
  [ (Phases.reconnaissance, 5)
  ; (Phases.initial_access, 10)
  ; (Phases.privilege_escalation, 10)
  ; (Phases.mission_completion, 5) ].

End Tables.

(* ===================================================================== *)
(** * Notions the further properties are stated with *)
(* ===================================================================== *)

Module Notions.
Import Dicts Db Effects Game Scoring.

(** [stream.decode() if stream else ""] evaluates to [text]. *)
Definition stream_decodes {W} (ext : Externals W) (stream : option string)
    (text : string) : Prop :=
  match stream with
  | None => text = ""%string
  | Some bytes =>
      if Py.truthy bytes then decode ext bytes = Returned text
      else text = ""%string
  end.

(** [stream.decode()] is reached and raises [e]. *)
Definition stream_fails {W} (ext : Externals W) (stream : option string)
    (e : exn) : Prop :=
  exists bytes,
    stream = Some bytes /\ Py.truthy bytes = true /\ decode ext bytes = Raised e.

(** What a list of awards makes of one Game row. *)
Definition bump (gid : option UUID) (l : list Award) (g : Games.row) : Games.row :=
  if same_game gid (Games.game_id g)
  then fold_left (fun g (a : Award) => add_points (fst (fst a)) (snd (fst a)) g) l g
  else g.

(** The points the red side is awarded for a red turn result. *)
Definition red_points {W} (ext : Externals W) (red_result : TurnResult) : Z :=
  (if detect_port_scan ext red_result then 10 else 0)
  + (if detect_service_identification ext red_result then 15 else 0)
  + (if detect_shell_access ext red_result then 100 else 0).

(** The points the blue side is awarded, or loses, for a blue turn result. *)
Definition blue_points {W} (ext : Externals W) (blue_result : TurnResult) : Z :=
  (if detect_attack_blocked ext blue_result then 50 else 0)
  + (if detect_ip_blocked ext blue_result then 75 else 0)
  + (if detect_service_down ext blue_result then -50 else 0).

(** [g'] is the row [g] with other scores. *)
Definition same_but_scores (g g' : Games.row) : Prop :=
  Games.game_id g' = Games.game_id g /\
  Games.red_team_model g' = Games.red_team_model g /\
  Games.blue_team_model g' = Games.blue_team_model g /\
  Games.scenario g' = Games.scenario g /\
  Games.winner g' = Games.winner g /\
  Games.status g' = Games.status g.

(** The database [d] is [d0] after the orchestrator [self] played the
    rounds after round [r0] of the Game [gid]: the [rounds] and [events]
    tables are those of [d0] with rows of that Game added at the end, one
    Round row per round played, and each added Event refers to an added
    Round. *)
Definition grown_by (gid : UUID) (r0 : Z) (d0 : Database) (self : Self)
    (d : Database) : Prop :=
  exists new_rounds new_events,
    rounds d = (rounds d0 ++ new_rounds)%list /\
    events d = (events d0 ++ new_events)%list /\
    map Rounds.round_number new_rounds = round_span r0 (round_number self) /\
    Forall (fun r => Rounds.game_id r = Some gid) new_rounds /\
    Forall (fun e => Events.game_id e = Some gid /\
                     exists r, In r new_rounds /\
                               Rounds.round_id r = Events.round_id e) new_events.

(** The [games] table of [d] is that of [d0] with the scores of the Game
    [gid] moved by what the rounds after round [r0] can give: between 0 and
    125 points a round for red, between -50 and 125 a round for blue. *)
Definition scores_within (gid : UUID) (r0 : Z) (d0 : Database) (self : Self)
    (d : Database) : Prop :=
  exists f,
    games d = map f (games d0) /\
    forall g,
      (same_game (Some gid) (Games.game_id g) = false -> f g = g) /\
      same_but_scores g (f g) /\
      Games.red_score g <= Games.red_score (f g)
        <= Games.red_score g + 125 * (round_number self - r0) /\
      Games.blue_score g - 50 * (round_number self - r0) <= Games.blue_score (f g)
        <= Games.blue_score g + 125 * (round_number self - r0).

(** [update_memory] called for each turn of a list, oldest first. *)
Definition remember (memory : list MemoryEntry)
    (turns : list (Decision.t * CommandResult)) : list MemoryEntry :=
  fold_left (fun m (turn : Decision.t * CommandResult) =>
               update_memory m (fst turn) (snd turn)) turns memory.

(** Every Event refers to a Round row of the same Game. *)
Definition events_reference_rounds (d : Database) : Prop :=
  forall e, In e (events d) ->
  exists r, In r (rounds d) /\
            Rounds.round_id r = Events.round_id e /\
            Rounds.game_id r = Events.game_id e.

End Notions.

(* ===================================================================== *)
(** * Properties: strings and the denylist *)
(* ===================================================================== *)

Module PyFacts.
Import Py.

Lemma startswith_spec (s prefix : string) :
  startswith s prefix = true <-> exists after, s = prefix ++ after.
Proof.
  revert s. induction prefix as [|p prefix IH]; intros s.
  - simpl. split; [intros _; now exists s | reflexivity].
  - destruct s as [|c s]; simpl.
    + split; [discriminate | intros [after H]; discriminate].
    + rewrite andb_true_iff, Ascii.eqb_eq, IH. split.
      * intros [-> [after ->]]. now exists after.
      * intros [after H]. injection H as -> ->. split; [reflexivity | now exists after].
Qed.

Lemma str_in_spec (needle haystack : string) :
  str_in needle haystack = true <-> substring_of needle haystack.
Proof.
  unfold substring_of. induction haystack as [|c rest IH].
  - cbn [str_in]. rewrite startswith_spec. split.
    + intros [after H]. now exists "", after.
    + intros [before [after H]]. destruct before; [now exists after | discriminate].
  - cbn [str_in]. rewrite orb_true_iff, startswith_spec, IH. split.
    + intros [[after H] | [before [after H]]].
      * now exists "", after.
      * exists (String c before), after. simpl. now rewrite H.
    + intros [before [after H]]. destruct before as [|b before].
      * left. now exists after.
      * right. simpl in H. injection H as _ H. now exists before, after.
Qed.

Lemma str_in_false (needle haystack : string) :
  str_in needle haystack = false <-> ~ substring_of needle haystack.
Proof.
  rewrite <- str_in_spec. destruct (str_in needle haystack); split; congruence.
Qed.

End PyFacts.

Module SafetyFacts.
Import Py Safety.

Lemma validate_against_false (blocklist : list string) (command : string) :
  validate_against blocklist command = false <->
  exists blocked, In blocked blocklist /\ substring_of blocked command.
Proof.
  induction blocklist as [|b rest IH]; simpl.
  - split; [discriminate | intros [? [[] _]]].
  - destruct (str_in b command) eqn:E.
    + split; [intros _ | reflexivity].
      exists b. split; [now left | now apply PyFacts.str_in_spec].
    + rewrite IH. apply PyFacts.str_in_false in E. split.
      * intros [x [Hin Hsub]]. exists x. split; [now right | exact Hsub].
      * intros [x [[<- | Hin] Hsub]]; [contradiction | now exists x].
Qed.

(** C9. [validate_command] returns [False] exactly when the command holds
    one of the three blocked strings as a contiguous substring, wherever it
    occurs, and [True] for every other command; a command such as
    [useradd] is rejected because [dd] occurs inside it. *)
Theorem validate_command_substring_containment (command : string) :
  (validate_command command = false <->
     substring_of "rm -rf /" command \/
     substring_of "dd" command \/
     substring_of ":(){ :|:& };:" command) /\
  (validate_command command = true <->
     ~ (substring_of "rm -rf /" command \/
        substring_of "dd" command \/
        substring_of ":(){ :|:& };:" command)) /\
  validate_command "useradd -m analyst" = false /\
  validate_command "nmap -sV 172.20.0.10" = true.
Proof.
  assert (Hfalse :
    validate_command command = false <->
      substring_of "rm -rf /" command \/
      substring_of "dd" command \/
      substring_of ":(){ :|:& };:" command).
  { unfold validate_command. rewrite validate_against_false.
    unfold BLOCKED_COMMANDS. split.
    - intros [b [Hin Hsub]]. simpl in Hin.
      destruct Hin as [<- | [<- | [<- | []]]]; auto.
    - intros [H | [H | H]]; eexists; (split; [| exact H]); simpl; auto. }
  split; [exact Hfalse |]. split; [| split; reflexivity].
  rewrite <- Hfalse. destruct (validate_command command); split; congruence.
Qed.

End SafetyFacts.

(* ===================================================================== *)
(** * Properties: the phase table *)
(* ===================================================================== *)

Module PhasesFacts.
Import Phases.

Lemma covers_iff (n : Z) (r : PhaseRange) :
  covers n r = true <-> first_round r <= n <= last_round r.
Proof. unfold covers. rewrite andb_true_iff, !Z.leb_le. tauto. Qed.

Lemma ordered_from_above (low : Z) (table : list PhaseRange) (r : PhaseRange) :
  ordered_from low table -> In r table -> low < first_round r.
Proof.
  revert low. induction table as [|h rest IH]; intros low Hord Hin.
  - destruct Hin.
  - destruct Hord as (Hlow & Hne & Hrest). destruct Hin as [-> | Hin].
    + exact Hlow.
    + specialize (IH _ Hrest Hin). lia.
Qed.

(** On a table of ascending disjoint ranges the lookup returns the phase of
    the one range holding the round number. *)
Lemma phase_for_table_in_range (table : list PhaseRange) (low n : Z) (r : PhaseRange) :
  ordered_from low table -> In r table ->
  first_round r <= n <= last_round r ->
  phase_for_table table n = phase r.
Proof.
  unfold phase_for_table. revert low.
  induction table as [|h rest IH]; intros low Hord Hin Hn.
  - destruct Hin.
  - destruct Hord as (Hlow & Hne & Hrest). cbn [find].
    destruct Hin as [-> | Hin].
    + apply covers_iff in Hn. now rewrite Hn.
    + pose proof (ordered_from_above _ _ _ Hrest Hin) as Habove.
      destruct (covers n h) eqn:Hc.
      * apply covers_iff in Hc. lia.
      * specialize (IH _ Hrest Hin Hn).
        destruct (find (covers n) rest) eqn:Hf; [exact IH |].
        exfalso. apply find_none with (x := r) in Hf; [| exact Hin].
        apply covers_iff in Hn. congruence.
Qed.

(** Past every range the lookup falls through to the final phase. *)
Lemma phase_for_table_beyond (table : list PhaseRange) (n : Z) :
  (forall r, In r table -> last_round r < n) ->
  phase_for_table table n = final_phase table reconnaissance.
Proof.
  intros Hpast. unfold phase_for_table.
  destruct (find (covers n) table) eqn:Hf; [| reflexivity].
  apply find_some in Hf. destruct Hf as [Hin Hc].
  apply covers_iff in Hc. specialize (Hpast _ Hin). lia.
Qed.

Lemma PHASE_TABLE_ordered : ordered_from 0 PHASE_TABLE.
Proof. cbn. lia. Qed.

Lemma PHASE_TABLE_last_round (r : PhaseRange) :
  In r PHASE_TABLE -> last_round r <= 30.
Proof.
  cbn. intros [<- | [<- | [<- | [<- | []]]]]; cbn; lia.
Qed.

(** C8. [phase_for] is a total function of the round number alone over
    the phase-range table: inside a configured range it returns that
    range's phase (reconnaissance for 1-5, initial access for 6-15,
    privilege escalation for 16-25, mission completion for 26-30), the same
    argument always gives the same phase, whatever else the orchestrator
    holds, and past every configured range it returns the final configured
    phase. *)
Theorem phase_for_total_over_table (n : Z) :
  (forall r, In r PHASE_TABLE ->
     first_round r <= n <= last_round r -> phase_for n = phase r) /\
  (1 <= n <= 5 -> phase_for n = reconnaissance) /\
  (6 <= n <= 15 -> phase_for n = initial_access) /\
  (16 <= n <= 25 -> phase_for n = privilege_escalation) /\
  (26 <= n <= 30 -> phase_for n = mission_completion) /\
  ((forall r, In r PHASE_TABLE -> last_round r < n) ->
     phase_for n = final_phase PHASE_TABLE reconnaissance) /\
  (30 < n -> phase_for n = mission_completion) /\
  (forall m, m = n -> phase_for m = phase_for n) /\
  (forall self self' : Game.Self,
     Game.round_number self = n -> Game.round_number self' = n ->
     Game.get_current_phase self = Game.get_current_phase self').
Proof.
  assert (Hin : forall r, In r PHASE_TABLE ->
            first_round r <= n <= last_round r -> phase_for n = phase r).
  { intros r Hr Hn.
    exact (phase_for_table_in_range PHASE_TABLE 0 n r PHASE_TABLE_ordered Hr Hn). }
  repeat split.
  - exact Hin.
  - intros Hn. apply (Hin (mkRange 1 5 reconnaissance)); cbn; auto.
  - intros Hn. apply (Hin (mkRange 6 15 initial_access)); cbn; auto.
  - intros Hn. apply (Hin (mkRange 16 25 privilege_escalation)); cbn; auto.
  - intros Hn. apply (Hin (mkRange 26 30 mission_completion)); cbn; auto.
  - apply phase_for_table_beyond.
  - intros Hn. unfold phase_for. rewrite phase_for_table_beyond; [reflexivity |].
    intros r Hr. pose proof (PHASE_TABLE_last_round r Hr). lia.
  - intros m ->. reflexivity.
  - intros self self' H1 H2. unfold Game.get_current_phase. now rewrite H1, H2.
Qed.

(** Round 3 lies in the first range, round 31 past the last one. *)
Lemma phase_for_total_over_table_witness :
  phase_for 3 = reconnaissance /\ phase_for 31 = mission_completion.
Proof.
  split.
  - apply (phase_for_total_over_table 3). lia.
  - apply (phase_for_total_over_table 31). lia.
Defined.

End PhasesFacts.

(* ===================================================================== *)
(** * Properties: the sandbox executor *)
(* ===================================================================== *)

Module ExecutorFacts.
Import Dicts Db Effects Game.

Section WithWorld.
Variable W : Type.
Variable ext : Externals W.

(** Unfolds the executor down to the calls it makes. *)
Ltac open_executor :=
  unfold execute_in_container, try_except, bind, sdk, ret.

Lemma decode_stream_cases (stream : option string) (s : Store W) :
  (exists text, decode_stream ext stream s = (Returned text, s)) \/
  (exists e, decode_stream ext stream s = (Raised e, s)).
Proof.
  unfold decode_stream. destruct stream as [bytes|]; [| left; now exists ""%string].
  destruct (Py.truthy bytes); [| left; now exists ""%string].
  unfold lift_result. destruct (decode ext bytes) as [text|e].
  - left. now exists text.
  - right. now exists e.
Qed.

(** On every path the executor returns a dict and leaves the database
    alone. *)
Lemma execute_in_container_returns (container command : string) (s : Store W) :
  exists r w, execute_in_container ext container command s
              = (Returned r, mkStore w (db s)).
Proof.
  open_executor.
  destruct (containers_get ext container (world s)) as [[c|e] w]; cbn;
    [| eexists; eexists; reflexivity].
  destruct (exec_run ext c (bash_c command) true COMMAND_TIMEOUT w)
    as [[[code [out err]]|e] w']; cbn; [| eexists; eexists; reflexivity].
  destruct (decode_stream_cases out (mkStore w' (db s))) as [[t1 ->] | [e1 ->]];
    [| eexists; eexists; reflexivity].
  destruct (decode_stream_cases err (mkStore w' (db s))) as [[t2 ->] | [e2 ->]];
    eexists; eexists; reflexivity.
Qed.

Lemma execute_in_container_lookup_fault (container command : string)
    (s : Store W) (e : exn) (w : W) :
  containers_get ext container (world s) = (Raised e, w) ->
  execute_in_container ext container command s
  = (Returned (mkCommandResult (-1) "" (str e)), mkStore w (db s)).
Proof.
  intros H. open_executor.
  now rewrite H.
Qed.

Lemma execute_in_container_exec_fault (container command : string)
    (s : Store W) (c : Container) (w : W) (e : exn) (w' : W) :
  containers_get ext container (world s) = (Returned c, w) ->
  exec_run ext c (bash_c command) true COMMAND_TIMEOUT w = (Raised e, w') ->
  execute_in_container ext container command s
  = (Returned (mkCommandResult (-1) "" (str e)), mkStore w' (db s)).
Proof.
  intros H1 H2. open_executor.
  rewrite H1. cbn. now rewrite H2.
Qed.

Lemma sandbox_fault_status (container command : string) (s : Store W)
    (res : CommandResult) (s' : Store W) :
  execute_in_container ext container command s = (Returned res, s') ->
  sandbox_fault ext container command s ->
  exit_code res = -1.
Proof.
  intros Hrun [(e & w & Hget) | (c & w & e & w' & Hget & Hexec)].
  - rewrite (execute_in_container_lookup_fault container command s e w Hget) in Hrun.
    now injection Hrun as <- _.
  - rewrite (execute_in_container_exec_fault container command s c w e w' Hget Hexec)
      in Hrun.
    now injection Hrun as <- _.
Qed.

End WithWorld.

(** C1. For every workload name and command, [execute_in_container]
    returns a result dict and never raises: when the workload is not found,
    and when the exec call fails in transport or runs into its timeout, the
    dict holds exit status -1, an empty stdout and the error text as
    stderr. *)
Theorem execute_in_container_never_raises (W : Type) (ext : Externals W)
    (container command : string) (s : Store W) :
  exists r s',
    execute_in_container ext container command s = (Returned r, s') /\
    (forall e w,
        containers_get ext container (world s) = (Raised e, w) ->
        r = mkCommandResult (-1) "" (str e)) /\
    (forall c w e w',
        containers_get ext container (world s) = (Returned c, w) ->
        exec_run ext c (bash_c command) true COMMAND_TIMEOUT w = (Raised e, w') ->
        r = mkCommandResult (-1) "" (str e)).
Proof.
  destruct (execute_in_container_returns W ext container command s) as (r & w & Hrun).
  exists r, (mkStore w (db s)). split; [exact Hrun |]. split.
  - intros e w0 Hget.
    rewrite (execute_in_container_lookup_fault W ext container command s e w0 Hget) in Hrun.
    now injection Hrun as <- _.
  - intros c w0 e w1 Hget Hexec.
    rewrite (execute_in_container_exec_fault W ext container command s c w0 e w1 Hget Hexec) in Hrun.
    now injection Hrun as <- _.
Qed.

(** A workload that does not exist, on the small range. *)
Lemma execute_in_container_never_raises_witness :
  exists r s',
    execute_in_container Lab.lab "ghost" "id" Lab.fresh = (Returned r, s') /\
    r = mkCommandResult (-1) "" "No such container: ghost".
Proof.
  destruct (execute_in_container_never_raises Lab.World Lab.lab "ghost" "id" Lab.fresh)
    as (r & s' & Hrun & Hlookup & _).
  exists r, s'. split; [exact Hrun |].
  apply (Hlookup (NotFound "No such container: ghost") []). reflexivity.
Defined.




(** C5, as the code has it: a command that matches the denylist is run all
    the same.  [rm -rf /] fails [validate_command], yet [execute_in_container]
    hands it to the workload and returns the program's own exit status, and
    a red turn whose agent asks for it runs it in [red-kali] and is recorded
    as successful. *)
Lemma denylisted_command_reaches_workload :
  Safety.matches_denylist "rm -rf /" /\
  Safety.validate_command "rm -rf /" = false /\
  execute_in_container Lab.lab "red-kali" "rm -rf /" Lab.fresh
    = (Returned (mkCommandResult 0 "done" ""),
       mkStore [("red-kali", bash_c "rm -rf /")] Db.empty) /\
  world (snd (execute_in_container Lab.lab "red-kali" "rm -rf /" Lab.fresh))
    <> world Lab.fresh /\
  exists tr s',
    execute_red_team_turn Lab.reckless (mkSelf (Some 0%nat) 1) Lab.one_game
      = (Returned tr, s') /\
    action tr = "rm -rf /"%string /\
    success tr = true /\
    world s' = [("red-kali", bash_c "rm -rf /")].
Proof.
  split; [| split; [reflexivity | split; [reflexivity | split; [discriminate |]]]].
  - exists "rm -rf /"%string. split; [now left |]. now exists ""%string, ""%string.
  - eexists. eexists. split; [vm_compute; reflexivity |]. now vm_compute.
Qed.

(** C5, amended. Every command that matches the configured denylist is
    rejected by the guard: [validate_command] returns [False] for it, a
    verdict read off the command text alone. *)
Theorem denylisted_command_fails_validation (command : string) :
  Safety.matches_denylist command -> Safety.validate_command command = false.
Proof.
  intros Hmatch. unfold Safety.validate_command.
  now apply SafetyFacts.validate_against_false.
Qed.

Lemma denylisted_command_fails_validation_witness :
  Safety.validate_command "dd if=/dev/zero of=/dev/sda" = false.
Proof.
  apply denylisted_command_fails_validation.
  exists "dd"%string. split; [right; now left |].
  now exists ""%string, " if=/dev/zero of=/dev/sda"%string.
Defined.

End ExecutorFacts.

(* ===================================================================== *)
(** * Properties: the two turns *)
(* ===================================================================== *)

Module TurnFacts.
Import Dicts Db Effects Game.

Section WithWorld.
Variable W : Type.
Variable ext : Externals W.

(** The red turn returns; it runs one command in [red-kali], makes one
    [log_command] call and sets the flag from that command's exit status. *)
Lemma execute_red_team_turn_spec (self : Self) (s : Store W) :
  let '(obs, w1) := observe_environment ext (world s) in
  let '(decision, w2) :=
    decide_action ext obs (get_recent_context (current_game_id self) red 10 (db s)) w1 in
  exists res w3 tr,
    execute_in_container ext "red-kali" (Decision.command decision) (mkStore w2 (db s))
      = (Returned res, mkStore w3 (db s)) /\
    execute_red_team_turn ext self s
      = (Returned tr,
         mkStore w3
           (with_command_log
              (log_command ext (round_number self) red "red-kali"
                 (Decision.command decision) res
                 (time_ms ext w3 - time_ms ext w2) (db s)) (db s))) /\
    action tr = Decision.command decision /\
    success tr = (exit_code res =? 0).
Proof.
  unfold execute_red_team_turn, bind, collaborator, db_query, clock, gets.
  destruct (observe_environment ext (world s)) as [obs w1]. cbn.
  destruct (decide_action ext obs _ w1) as [decision w2]. cbn.
  destruct (ExecutorFacts.execute_in_container_returns W ext "red-kali"
              (Decision.command decision) (mkStore w2 (db s))) as (res & w3 & Hrun).
  cbn in Hrun. exists res, w3. rewrite Hrun. cbn.
  eexists. repeat split; reflexivity.
Qed.

(** The blue turn returns.  With the action ['none'] nothing is run and the
    flag comes from the default result, whose exit status is 0; otherwise it
    comes from the exit status of the command run in [blue-target]. *)
Lemma execute_blue_team_turn_spec (self : Self) (s : Store W) :
  let '(telemetry, w1) := monitor_system ext (world s) in
  let '(defense, w2) :=
    decide_defense ext telemetry
      (get_recent_context (current_game_id self) blue 10 (db s)) w1 in
  exists res w3 tr,
    (if String.eqb (Defense.defensive_action defense) "none"
     then res = mkCommandResult 0 "" "" /\ w3 = w2
     else execute_in_container ext "blue-target" (Defense.defensive_action defense)
            (mkStore w2 (db s)) = (Returned res, mkStore w3 (db s))) /\
    execute_blue_team_turn ext self s
      = (Returned tr,
         mkStore w3
           (with_telemetry (log_telemetry ext (round_number self) telemetry (db s))
              (db s))) /\
    action tr = Defense.defensive_action defense /\
    success tr = (exit_code res =? 0).
Proof.
  unfold execute_blue_team_turn, bind, collaborator, db_query, clock, gets.
  destruct (monitor_system ext (world s)) as [telemetry w1]. cbn.
  destruct (decide_defense ext telemetry _ w1) as [defense w2]. cbn.
  destruct (String.eqb (Defense.defensive_action defense) "none") eqn:Hnone; cbn.
  - exists (mkCommandResult 0 "" ""), w2. eexists. repeat split; reflexivity.
  - destruct (ExecutorFacts.execute_in_container_returns W ext "blue-target"
                (Defense.defensive_action defense) (mkStore w2 (db s)))
      as (res & w3 & Hrun).
    cbn in Hrun. exists res, w3. rewrite Hrun. cbn.
    eexists. repeat split; reflexivity.
Qed.

(** Either turn returns and changes the database in one logging table. *)
Lemma execute_red_team_turn_returns (self : Self) (s : Store W) :
  exists tr w rows,
    execute_red_team_turn ext self s
    = (Returned tr, mkStore w (with_command_log rows (db s))).
Proof.
  pose proof (execute_red_team_turn_spec self s) as H.
  destruct (observe_environment ext (world s)) as [obs w1].
  destruct (decide_action ext obs _ w1) as [decision w2].
  destruct H as (res & w3 & tr & _ & Hturn & _).
  exists tr, w3. eexists. exact Hturn.
Qed.

Lemma execute_blue_team_turn_returns (self : Self) (s : Store W) :
  exists tr w rows,
    execute_blue_team_turn ext self s
    = (Returned tr, mkStore w (with_telemetry rows (db s))).
Proof.
  pose proof (execute_blue_team_turn_spec self s) as H.
  destruct (monitor_system ext (world s)) as [telemetry w1].
  destruct (decide_defense ext telemetry _ w1) as [defense w2].
  destruct H as (res & w3 & tr & _ & Hturn & _).
  exists tr, w3. eexists. exact Hturn.
Qed.

End WithWorld.

(** C10. The success flag of a turn is the test [exit_code == 0] on the
    command result of that turn.  The red turn's flag is true exactly when
    the command it ran returned exit status 0, so the executor's fault
    status -1 and every other nonzero status give an unsuccessful turn; the
    blue turn with the action ['none'] runs nothing, leaves the world as the
    agent calls left it and is recorded as successful; a blue turn with any
    other action is flagged like a red one; [update_memory] stores the same
    test. *)
Theorem success_flag_is_exit_status_zero (W : Type) (ext : Externals W)
    (self : Self) (s : Store W) :
  (let '(obs, w1) := observe_environment ext (world s) in
   let '(decision, w2) :=
     decide_action ext obs (get_recent_context (current_game_id self) red 10 (db s)) w1 in
   exists res s2 tr s',
     execute_in_container ext "red-kali" (Decision.command decision) (mkStore w2 (db s))
       = (Returned res, s2) /\
     execute_red_team_turn ext self s = (Returned tr, s') /\
     (success tr = true <-> exit_code res = 0) /\
     (exit_code res = -1 -> success tr = false) /\
     (exit_code res <> 0 -> success tr = false) /\
     (sandbox_fault ext "red-kali" (Decision.command decision) (mkStore w2 (db s)) ->
      success tr = false)) /\
  (let '(telemetry, w1) := monitor_system ext (world s) in
   let '(defense, w2) :=
     decide_defense ext telemetry
       (get_recent_context (current_game_id self) blue 10 (db s)) w1 in
   exists tr s',
     execute_blue_team_turn ext self s = (Returned tr, s') /\
     (Defense.defensive_action defense = "none"%string ->
        success tr = true /\ world s' = w2) /\
     (Defense.defensive_action defense <> "none"%string ->
        exists res s2,
          execute_in_container ext "blue-target" (Defense.defensive_action defense)
            (mkStore w2 (db s)) = (Returned res, s2) /\
          (success tr = true <-> exit_code res = 0) /\
          (exit_code res = -1 -> success tr = false) /\
          (exit_code res <> 0 -> success tr = false) /\
          (sandbox_fault ext "blue-target" (Defense.defensive_action defense)
             (mkStore w2 (db s)) -> success tr = false))) /\
  (forall memory action res,
     exists entry,
       update_memory memory action res = (memory ++ [entry])%list /\
       (m_success entry = true <-> exit_code res = 0)).
Proof.
  assert (Hflag : forall (b : bool) (code : Z), b = (code =? 0) ->
            (b = true <-> code = 0) /\ (code = -1 -> b = false) /\
            (code <> 0 -> b = false)).
  { intros b code ->. repeat split.
    - apply Z.eqb_eq.
    - apply Z.eqb_eq.
    - intros ->. reflexivity.
    - apply Z.eqb_neq. }
  split; [| split].
  - pose proof (execute_red_team_turn_spec W ext self s) as H.
    destruct (observe_environment ext (world s)) as [obs w1].
    destruct (decide_action ext obs _ w1) as [decision w2].
    destruct H as (res & w3 & tr & Hrun & Hturn & _ & Hsuccess).
    exists res, (mkStore w3 (db s)), tr. eexists.
    split; [exact Hrun |]. split; [exact Hturn |].
    destruct (Hflag _ _ Hsuccess) as (Hiff & Hminus & Hnonzero).
    repeat split; try apply Hiff; auto.
    intros Hfault. apply Hminus.
    exact (ExecutorFacts.sandbox_fault_status W ext _ _ _ _ _ Hrun Hfault).
  - pose proof (execute_blue_team_turn_spec W ext self s) as H.
    destruct (monitor_system ext (world s)) as [telemetry w1].
    destruct (decide_defense ext telemetry _ w1) as [defense w2].
    destruct H as (res & w3 & tr & Hrun & Hturn & _ & Hsuccess).
    exists tr. eexists. split; [exact Hturn |]. split.
    + intros Hnone. rewrite Hnone in Hrun. cbn in Hrun.
      destruct Hrun as [-> ->]. split; [exact Hsuccess | reflexivity].
    + intros Hsome. apply String.eqb_neq in Hsome. rewrite Hsome in Hrun.
      exists res, (mkStore w3 (db s)). split; [exact Hrun |].
      destruct (Hflag _ _ Hsuccess) as (Hiff & Hminus & Hnonzero).
      repeat split; try apply Hiff; auto.
      intros Hfault. apply Hminus.
      exact (ExecutorFacts.sandbox_fault_status W ext _ _ _ _ _ Hrun Hfault).
  - intros memory action res. eexists. split; [reflexivity |]. cbn.
    apply Z.eqb_eq.
Qed.

End TurnFacts.

(* ===================================================================== *)
(** * Properties: scoring *)
(* ===================================================================== *)

Module ScoringFacts.
Import Dicts Db Effects Game Scoring.

(** ** Sums of point deltas *)

Lemma sum_app (l1 l2 : list Z) :
  fold_right Z.add 0 (l1 ++ l2) = fold_right Z.add 0 l1 + fold_right Z.add 0 l2.
Proof. induction l1 as [|x l1 IH]; cbn; [reflexivity | lia]. Qed.

Lemma event_points_app (gid : UUID) (t : Team) (evs more : list Events.row) :
  event_points gid t (evs ++ more) = event_points gid t evs + event_points gid t more.
Proof. unfold event_points. now rewrite filter_app, map_app, sum_app. Qed.

Lemma same_game_sym (gid : option UUID) (id : UUID) :
  same_game_opt (Some id) gid = same_game gid id.
Proof. destruct gid as [g|]; cbn; [apply Nat.eqb_sym | reflexivity]. Qed.

Lemma event_points_one (gid : UUID) (t : Team) (e : Events.row) :
  event_points gid t [e]
  = if same_game (Events.game_id e) gid && team_eqb (Events.team e) t
    then Events.points_awarded e else 0.
Proof.
  unfold event_points. cbn [filter]. rewrite same_game_sym.
  destruct (same_game (Events.game_id e) gid && team_eqb (Events.team e) t);
    cbn; lia.
Qed.

Lemma add_points_game_id (t : Team) (p : Z) (g : Games.row) :
  Games.game_id (add_points t p g) = Games.game_id g.
Proof. now destruct t. Qed.

Lemma add_points_score (t t0 : Team) (p : Z) (g : Games.row) :
  cumulative_score t0 (add_points t p g)
  = cumulative_score t0 g + (if team_eqb t t0 then p else 0).
Proof. destruct t, t0; cbn; lia. Qed.

(** ** One award *)

Lemma apply_award_events (gid : option UUID) (rid : UUID) (d : Database)
    (t : Team) (p : Z) (k : string) :
  events (apply_award gid rid d (t, p, k))
  = (events d ++
     [Events.mk (next_uuid d) gid rid k t (team_name t ++ " team: " ++ k)%string p])%list.
Proof. reflexivity. Qed.

Lemma apply_award_games (gid : option UUID) (rid : UUID) (d : Database)
    (t : Team) (p : Z) (k : string) :
  games (apply_award gid rid d (t, p, k))
  = map (fun g => if same_game gid (Games.game_id g) then add_points t p g else g)
      (games d).
Proof. reflexivity. Qed.

(** The score update and the Event of one award keep score and Events in
    step, for every Game in the table. *)
Lemma apply_award_consistent (gid : option UUID) (rid : UUID) (d : Database)
    (a : Award) :
  scores_consistent d -> scores_consistent (apply_award gid rid d a).
Proof.
  destruct a as [[t p] k]. intros Hd g' Hin t0.
  rewrite apply_award_games in Hin. apply in_map_iff in Hin.
  destruct Hin as (g & <- & Hin). specialize (Hd g Hin t0).
  rewrite apply_award_events, event_points_app, event_points_one. cbn.
  destruct (same_game gid (Games.game_id g)) eqn:Hsame.
  - rewrite add_points_game_id, add_points_score, Hsame, Hd. reflexivity.
  - rewrite Hsame, Hd. cbn. lia.
Qed.

Lemma apply_awards_consistent (gid : option UUID) (rid : UUID) (l : list Award)
    (d : Database) :
  scores_consistent d -> scores_consistent (apply_awards gid rid l d).
Proof.
  unfold apply_awards. revert d.
  induction l as [|a l IH]; intros d Hd; cbn; [exact Hd |].
  apply IH. now apply apply_award_consistent.
Qed.

(** ** What the orchestrator's scoring methods write *)

Lemma award_points_spec (W : Type) (self : Self) (t : Team) (p : Z)
    (k : string) (rid : UUID) (s : Store W) :
  award_points self t p k rid s
  = (Returned tt, mkStore (world s) (apply_award (current_game_id self) rid (db s) (t, p, k))).
Proof. reflexivity. Qed.

Lemma evaluate_round_spec (W : Type) (ext : Externals W) (self : Self)
    (rid : UUID) (red_result blue_result : TurnResult) (s : Store W) :
  evaluate_round ext self rid red_result blue_result s
  = (Returned tt,
     mkStore (world s)
       (apply_awards (current_game_id self) rid (awards ext red_result blue_result) (db s))).
Proof.
  unfold evaluate_round, awards.
  destruct (detect_port_scan ext red_result),
    (detect_service_identification ext red_result),
    (detect_shell_access ext red_result),
    (detect_attack_blocked ext blue_result),
    (detect_ip_blocked ext blue_result),
    (detect_service_down ext blue_result);
    destruct s; reflexivity.
Qed.

(** ** The Events of a list of awards *)

(** A run of awards appends one Event per award, in order, each for the
    given Game and round, with keys drawn from the counter. *)
Lemma apply_awards_events (gid : option UUID) (rid : UUID) (l : list Award)
    (d : Database) :
  exists new,
    events (apply_awards gid rid l d) = (events d ++ new)%list /\
    map award_of new = l /\
    Forall (fun e => Events.game_id e = gid /\ Events.round_id e = rid /\
                     (next_uuid d <= Events.event_id e)%nat) new /\
    (next_uuid d <= next_uuid (apply_awards gid rid l d))%nat.
Proof.
  unfold apply_awards. revert d.
  induction l as [|[[t p] k] l IH]; intros d.
  - exists []. cbn. rewrite app_nil_r. auto.
  - cbn [fold_left].
    destruct (IH (apply_award gid rid d (t, p, k))) as (new & Hev & Hmap & Hall & Hcnt).
    eexists (_ :: new). rewrite Hev, apply_award_events, <- app_assoc.
    assert (Hnext : next_uuid (apply_award gid rid d (t, p, k)) = S (next_uuid d))
      by reflexivity.
    rewrite Hnext in Hcnt.
    split; [reflexivity |]. split; [cbn; now rewrite Hmap |].
    split; [| lia]. constructor; [cbn; auto |].
    eapply Forall_impl; [| exact Hall]. cbn beta. rewrite Hnext.
    intros e (? & ? & ?). repeat split; auto. lia.
Qed.

Lemma apply_awards_rounds (gid : option UUID) (rid : UUID) (l : list Award)
    (d : Database) :
  rounds (apply_awards gid rid l d) = rounds d.
Proof.
  unfold apply_awards. revert d.
  induction l as [|[[t p] k] l IH]; intros d; [reflexivity |].
  cbn [fold_left]. now rewrite IH.
Qed.

(** A run of awards moves each side's score of the Game by the total of the
    awards to that side, and no other Game's. *)
Lemma apply_awards_scores (gid : option UUID) (rid : UUID) (l : list Award)
    (d : Database) :
  exists f,
    games (apply_awards gid rid l d) = map f (games d) /\
    forall g t0,
      Games.game_id (f g) = Games.game_id g /\
      cumulative_score t0 (f g)
      = cumulative_score t0 g
        + (if same_game gid (Games.game_id g) then total t0 l else 0).
Proof.
  unfold apply_awards. revert d.
  induction l as [|[[t p] k] l IH]; intros d.
  - exists (fun g => g). cbn. rewrite map_id. split; [reflexivity |].
    intros g t0. split; [reflexivity |]. destruct (same_game _ _); lia.
  - cbn [fold_left].
    destruct (IH (apply_award gid rid d (t, p, k))) as (f & Hgames & Hf).
    rewrite apply_award_games, map_map in Hgames.
    eexists. split; [exact Hgames |]. intros g t0. cbn beta.
    destruct (same_game gid (Games.game_id g)) eqn:Hsame.
    + destruct (Hf (add_points t p g) t0) as [Hid Hscore].
      rewrite add_points_game_id in Hid, Hscore. rewrite Hsame in Hscore.
      split; [exact Hid |]. rewrite Hscore, add_points_score. unfold total. cbn. lia.
    + destruct (Hf g t0) as [Hid Hscore]. rewrite Hsame in Hscore.
      split; [exact Hid | exact Hscore].
Qed.

(** ** At most one Event per kind *)

Lemma of_kind_length (t : Team) (k : string) (evs : list Events.row) :
  (List.length (of_kind t k evs)
   <= count_occ string_dec (map kind_of (map award_of evs)) k)%nat.
Proof.
  unfold of_kind. induction evs as [|e evs IH]; [cbn; lia |].
  cbn [map filter].
  destruct (string_dec (kind_of (award_of e)) k) as [Heq | Hne].
  - rewrite (count_occ_cons_eq string_dec _ Heq).
    destruct (team_eqb (Events.team e) t && (Events.event_type e =? k)%string);
      cbn [List.length]; lia.
  - rewrite (count_occ_cons_neq string_dec _ Hne).
    unfold kind_of, award_of in Hne. cbn [snd] in Hne.
    apply String.eqb_neq in Hne. rewrite Hne, andb_false_r. exact IH.
Qed.

Lemma awards_kinds_distinct (W : Type) (ext : Externals W)
    (red_result blue_result : TurnResult) :
  NoDup (map kind_of (awards ext red_result blue_result)).
Proof.
  unfold awards.
  destruct (detect_port_scan ext red_result),
    (detect_service_identification ext red_result),
    (detect_shell_access ext red_result),
    (detect_attack_blocked ext blue_result),
    (detect_ip_blocked ext blue_result),
    (detect_service_down ext blue_result);
    cbn; repeat constructor; cbn; intuition discriminate.
Qed.

Lemma of_kind_in (t : Team) (k : string) (evs : list Events.row) (e : Events.row) :
  In e (of_kind t k evs) <->
  In e evs /\ Events.team e = t /\ Events.event_type e = k.
Proof.
  unfold of_kind. rewrite filter_In, andb_true_iff, String.eqb_eq.
  destruct (Events.team e), t; cbn; intuition discriminate.
Qed.

(** C3. Within one round, however the detectors come to report a kind,
    [evaluate_round] records at most one Event of that kind for the side,
    and exactly one, with the kind's point value, when the kind is
    detected; the side's score moves by each detected kind's value once.
    Nothing is remembered across rounds: evaluating a later round with the
    same detections awards the same kinds again. *)
Theorem kind_awarded_once_per_round (W : Type) (ext : Externals W)
    (self : Self) (round_id : UUID) (red_result blue_result : TurnResult)
    (s : Store W) :
  exists s' new,
    evaluate_round ext self round_id red_result blue_result s = (Returned tt, s') /\
    events (db s') = (events (db s) ++ new)%list /\
    Forall (fun e => Events.round_id e = round_id) new /\
    (forall t kind, (List.length (of_kind t kind new) <= 1)%nat) /\
    (forall t points kind,
        In (t, points, kind) (awards ext red_result blue_result) ->
        exists e, of_kind t kind new = [e] /\ Events.points_awarded e = points) /\
    (exists f,
        games (db s') = map f (games (db s)) /\
        forall g t,
          cumulative_score t (f g)
          = cumulative_score t g
            + (if same_game (current_game_id self) (Games.game_id g)
               then total t (awards ext red_result blue_result) else 0)) /\
    (forall later_round_id,
        exists s'' again,
          evaluate_round ext self later_round_id red_result blue_result s'
            = (Returned tt, s'') /\
          events (db s'') = (events (db s') ++ again)%list /\
          map award_of again = map award_of new).
Proof.
  rewrite evaluate_round_spec.
  set (l := awards ext red_result blue_result).
  set (gid := current_game_id self).
  destruct (apply_awards_events gid round_id l (db s))
    as (new & Hev & Hmap & Hall & _).
  eexists. exists new. split; [reflexivity |]. cbn [db].
  assert (Hone : forall t kind, (List.length (of_kind t kind new) <= 1)%nat).
  { intros t kind. etransitivity; [apply of_kind_length |].
    rewrite Hmap. apply NoDup_count_occ. apply awards_kinds_distinct. }
  split; [exact Hev |]. split.
  { eapply Forall_impl; [| exact Hall]. cbn. tauto. }
  split; [exact Hone |]. split; [| split].
  - intros t points kind Hin. rewrite <- Hmap in Hin.
    apply in_map_iff in Hin. destruct Hin as (e & Haward & Hin).
    injection Haward as Ht Hp Hk.
    assert (Hkind : In e (of_kind t kind new)) by now apply of_kind_in.
    specialize (Hone t kind).
    destruct (of_kind t kind new) as [|e0 [|e1 rest]] eqn:Hof.
    + destruct Hkind.
    + destruct Hkind as [-> | []]. now exists e.
    + cbn in Hone. lia.
  - destruct (apply_awards_scores gid round_id l (db s)) as (f & Hgames & Hf).
    exists f. split; [exact Hgames |]. intros g t. apply Hf.
  - intros later. rewrite evaluate_round_spec. cbn [db world].
    destruct (apply_awards_events gid later l (apply_awards gid round_id l (db s)))
      as (again & Hev2 & Hmap2 & _).
    eexists. exists again. split; [reflexivity |]. cbn [db].
    split; [exact Hev2 | congruence].
Qed.

(** On the small range a scan that reports an open port earns the red
    side its 10 points once. *)
Lemma kind_awarded_once_per_round_witness :
  let red_result := mkTurnResult "{}" "" "nmap" "22/tcp open  ssh" true 0 None in
  let blue_result := mkTurnResult "{}" "" "none" "" true 0 None in
  exists s' new,
    evaluate_round Lab.lab (mkSelf (Some 0%nat) 1) 1%nat red_result blue_result
      Lab.one_game = (Returned tt, s') /\
    exists e, of_kind red "port_scan_complete" new = [e] /\
              Events.points_awarded e = 10.
Proof.
  intros red_result blue_result.
  destruct (kind_awarded_once_per_round Lab.World Lab.lab (mkSelf (Some 0%nat) 1)
              1%nat red_result blue_result Lab.one_game)
    as (s' & new & Hrun & _ & _ & _ & Hexact & _).
  exists s', new. split; [exact Hrun |].
  apply Hexact. cbn. now left.
Defined.

End ScoringFacts.

(* ===================================================================== *)
(** * Properties: one round and the game loop *)
(* ===================================================================== *)

Module LoopFacts.
Import Dicts Db Effects Game Scoring.

Lemma logged_refl (d : Database) : logged d d.
Proof. unfold logged. auto. Qed.

Lemma logged_trans (d1 d2 d3 : Database) :
  logged d1 d2 -> logged d2 d3 -> logged d1 d3.
Proof. unfold logged. intros (-> & -> & -> & ?) (-> & -> & -> & ?). repeat split; lia. Qed.

Lemma with_command_log_logged (rows : list CommandLog.row) (d : Database) :
  logged d (with_command_log rows d).
Proof. unfold logged. cbn. repeat split; lia. Qed.

Lemma with_telemetry_logged (rows : list Telemetry.row) (d : Database) :
  logged d (with_telemetry rows d).
Proof. unfold logged. cbn. repeat split; lia. Qed.

(** ** Round numbers *)

Lemma round_span_nil (a b : Z) : b <= a -> round_span a b = [].
Proof.
  intros H. unfold round_span. replace (Z.to_nat (b - a)) with 0%nat by lia.
  reflexivity.
Qed.

Lemma round_span_cons (a b : Z) :
  a < b -> round_span a b = (a + 1) :: round_span (a + 1) b.
Proof.
  intros H. unfold round_span.
  replace (Z.to_nat (b - a)) with (S (Z.to_nat (b - (a + 1)))) by lia.
  cbn [seq map]. f_equal. rewrite <- seq_shift, map_map.
  apply map_ext. intros i. lia.
Qed.



Lemma same_game_opt_refl (gid : UUID) :
  same_game_opt (Some gid) (Some gid) = true.
Proof. cbn. apply Nat.eqb_refl. Qed.

Section WithWorld.
Variable W : Type.
Variable ext : Externals W.

(** ** One round *)

Lemma play_round_spec (self : Self) (s : Store W) :
  exists red_result blue_result w d1,
    logged (db s) d1 /\
    play_round ext self s
    = (Returned (check_game_over ext self (after_round ext self w d1 red_result blue_result)),
       after_round ext self w d1 red_result blue_result).
Proof.
  unfold play_round, bind.
  destruct (TurnFacts.execute_red_team_turn_returns W ext self s)
    as (rr & w1 & commands & Hred).
  rewrite Hred.
  destruct (TurnFacts.execute_blue_team_turn_returns W ext self
              (mkStore w1 (with_command_log commands (db s))))
    as (br & w2 & metrics & Hblue).
  rewrite Hblue. cbn [db] in *.
  exists rr, br, w2.
  eexists. split.
  - eapply logged_trans; [apply with_command_log_logged | apply with_telemetry_logged].
  - unfold db_insert. cbn [db world log_round fst snd].
    rewrite ScoringFacts.evaluate_round_spec. reflexivity.
Qed.

Lemma after_round_rounds (self : Self) (w : W) (d d1 : Database)
    (rr br : TurnResult) :
  logged d d1 ->
  exists row,
    rounds (db (after_round ext self w d1 rr br)) = (rounds d ++ [row])%list /\
    Rounds.round_id row = next_uuid d1 /\
    Rounds.game_id row = current_game_id self /\
    Rounds.round_number row = round_number self /\
    Rounds.red_points_earned row = 0 /\
    Rounds.blue_points_earned row = 0.
Proof.
  intros (_ & Hrounds & _). unfold after_round. cbn [db].
  rewrite ScoringFacts.apply_awards_rounds. cbn. rewrite Hrounds.
  eexists. split; [reflexivity |]. cbn. auto.
Qed.

Lemma after_round_consistent (self : Self) (w : W) (d d1 : Database)
    (rr br : TurnResult) :
  logged d d1 -> scores_consistent d ->
  scores_consistent (db (after_round ext self w d1 rr br)).
Proof.
  intros (Hgames & _ & Hevents & _) Hd. unfold after_round. cbn [db].
  apply ScoringFacts.apply_awards_consistent.
  intros g Hin t. cbn in Hin |- *. rewrite Hgames in Hin. rewrite Hevents.
  now apply Hd.
Qed.

Lemma after_round_ids (self : Self) (w : W) (d d1 : Database)
    (rr br : TurnResult) :
  logged d d1 ->
  map Games.game_id (games (db (after_round ext self w d1 rr br)))
  = map Games.game_id (games d).
Proof.
  intros (Hgames & _). unfold after_round. cbn [db].
  destruct (ScoringFacts.apply_awards_scores (current_game_id self) (next_uuid d1)
              (awards ext rr br)
              (snd (log_round (current_game_id self) (round_number self) rr br d1)))
    as (f & -> & Hf).
  cbn. rewrite Hgames, map_map. apply map_ext. intros g.
  apply (Hf g red).
Qed.

Lemma after_round_round_numbers (self : Self) (w : W) (d d1 : Database)
    (rr br : TurnResult) (gid : UUID) :
  logged d d1 -> current_game_id self = Some gid ->
  round_numbers (Some gid) (db (after_round ext self w d1 rr br))
  = (round_numbers (Some gid) d ++ [round_number self])%list.
Proof.
  intros Hlog Hgid.
  destruct (after_round_rounds self w d d1 rr br Hlog)
    as (row & Hrounds & _ & Hgame & Hnum & _).
  unfold round_numbers. rewrite Hrounds, filter_app, map_app. cbn [filter].
  rewrite Hgame, Hgid, same_game_opt_refl. cbn. now rewrite Hnum.
Qed.

(** ** The loop *)

Lemma game_loop_step (max_rounds : Z) (self : Self) (s : Store W) :
  game_loop ext max_rounds self s
  = if round_number self <? max_rounds then
      match play_round ext (next_round self) s with
      | (Returned false, s') => game_loop ext max_rounds (next_round self) s'
      | (Returned true, s') => (Returned tt, (next_round self, s'))
      | (Raised e, s') => (Raised e, (next_round self, s'))
      end
    else (Returned tt, (self, s)).
Proof.
  rewrite game_loop_equation_1.
  destruct (Z_lt_dec (round_number self) max_rounds) as [Hlt | Hge];
    simp game_loop.
  - apply Z.ltb_lt in Hlt as Hb. rewrite Hb.
    destruct (play_round ext (next_round self) s) as [[[|]|e] s'];
      simp game_loop; reflexivity.
  - apply Z.ltb_nlt in Hge. now rewrite Hge.
Qed.

(** The loop returns.  It leaves the Game's rounds numbered on from the
    counter it started with, one per iteration, stops at [max_rounds] at the
    latest, and keeps scores and Events in step. *)
Lemma game_loop_spec (max_rounds : Z) (gid : UUID) (n : nat) :
  forall (self : Self) (s : Store W),
    Z.to_nat (max_rounds - round_number self) = n ->
    current_game_id self = Some gid ->
    exists self' s',
      game_loop ext max_rounds self s = (Returned tt, (self', s')) /\
      current_game_id self' = Some gid /\
      round_number self <= round_number self' <= Z.max (round_number self) max_rounds /\
      round_numbers (Some gid) (db s')
      = (round_numbers (Some gid) (db s)
         ++ round_span (round_number self) (round_number self'))%list /\
      map Games.game_id (games (db s')) = map Games.game_id (games (db s)) /\
      (scores_consistent (db s) -> scores_consistent (db s')).
Proof.
  induction n as [|k IH]; intros self s Hn Hgid; rewrite game_loop_step.
  - assert (Hge : (round_number self <? max_rounds) = false)
      by (apply Z.ltb_ge; lia).
    rewrite Hge. exists self, s. split; [reflexivity |]. split; [exact Hgid |].
    split; [lia |]. split; [| auto].
    rewrite round_span_nil by lia. now rewrite app_nil_r.
  - assert (Hlt : round_number self < max_rounds) by lia.
    apply Z.ltb_lt in Hlt as Hb. rewrite Hb.
    destruct (play_round_spec (next_round self) s)
      as (rr & br & w & d1 & Hlog & Hplay).
    rewrite Hplay.
    set (s1 := after_round ext (next_round self) w d1 rr br).
    assert (Hnum : round_numbers (Some gid) (db s1)
                   = (round_numbers (Some gid) (db s) ++ [round_number self + 1])%list)
      by (apply (after_round_round_numbers (next_round self) w (db s) d1 rr br gid Hlog Hgid)).
    assert (Hcons : scores_consistent (db s) -> scores_consistent (db s1))
      by (apply after_round_consistent; exact Hlog).
    assert (Hids : map Games.game_id (games (db s1)) = map Games.game_id (games (db s)))
      by (apply after_round_ids; exact Hlog).
    destruct (check_game_over ext (next_round self) s1).
    + exists (next_round self), s1. split; [reflexivity |]. split; [exact Hgid |].
      cbn [next_round round_number]. split; [lia |].
      split; [| split; [exact Hids | exact Hcons]].
      rewrite Hnum, round_span_cons, round_span_nil by lia. reflexivity.
    + destruct (IH (next_round self) s1)
        as (self' & s' & Hloop & Hgid' & Hrange & Hnums & Hids' & Hcons');
        [cbn; lia | exact Hgid |].
      cbn [next_round round_number] in Hrange, Hnums.
      exists self', s'. split; [exact Hloop |]. split; [exact Hgid' |].
      split; [lia |]. split; [| split; [congruence | auto]].
      rewrite Hnums, Hnum, <- app_assoc. f_equal.
      rewrite (round_span_cons (round_number self) (round_number self')) by lia.
      reflexivity.
Qed.

(** ** Starting and ending a game *)

Lemma complete_game_consistent (gid : option UUID) (d : Database) :
  scores_consistent d -> scores_consistent (complete_game gid d).
Proof.
  intros Hd g' Hin t. cbn in Hin. apply in_map_iff in Hin.
  destruct Hin as (g & <- & Hin). cbn [events complete_game].
  specialize (Hd g Hin t).
  destruct (same_game gid (Games.game_id g)); [| exact Hd].
  destruct t; exact Hd.
Qed.

Lemma complete_game_ids (gid : option UUID) (d : Database) :
  map Games.game_id (games (complete_game gid d)) = map Games.game_id (games d).
Proof.
  cbn. rewrite map_map. apply map_ext. intros g.
  now destruct (same_game gid (Games.game_id g)).
Qed.

Lemma event_points_fresh (id : UUID) (t : Team) (evs : list Events.row) :
  (forall e gid, In e evs -> Events.game_id e = Some gid -> (gid < id)%nat) ->
  event_points id t evs = 0.
Proof.
  intros Hkeys. unfold event_points.
  induction evs as [|e evs IH]; [reflexivity |]. cbn [filter].
  assert (Hno : same_game_opt (Some id) (Events.game_id e) = false).
  { destruct (Events.game_id e) as [g|] eqn:Hg; [| reflexivity]. cbn.
    apply Nat.eqb_neq. specialize (Hkeys e g (or_introl eq_refl) Hg). lia. }
  rewrite Hno. cbn [andb]. apply IH. intros e' gid Hin. apply Hkeys. now right.
Qed.

Lemma create_game_consistent (red_m blue_m scenario : string) (d : Database) :
  scores_consistent d -> keys_below_counter d ->
  scores_consistent (snd (create_game red_m blue_m scenario d)).
Proof.
  intros Hd (_ & Hevents & _) g Hin t.
  cbn [snd create_game games events] in Hin |- *.
  apply in_app_or in Hin. destruct Hin as [Hin | [<- | []]].
  - now apply Hd.
  - cbn [Games.game_id]. rewrite event_points_fresh; [now destruct t | exact Hevents].
Qed.


(** [start_game] on a fresh orchestrator returns, with the loop's rounds
    and the game marked completed. *)
Lemma start_game_spec (scenario : string) (config : Config) (s : Store W) :
  let gid := next_uuid (db s) in
  let limit := match max_rounds config with Some n => n | None => 30 end in
  let d0 := snd (create_game (red_model ext) (blue_model ext) scenario (db s)) in
  exists self' s1 w0,
    start_game ext scenario config init s
      = (Returned tt, (self', mkStore (world s1) (complete_game (Some gid) (db s1)))) /\
    game_loop ext limit (mkSelf (Some gid) 0) (mkStore w0 d0)
      = (Returned tt, (self', s1)) /\
    current_game_id self' = Some gid /\
    0 <= round_number self' <= Z.max 0 limit /\
    round_numbers (Some gid) (db s1)
      = (round_numbers (Some gid) d0 ++ round_span 0 (round_number self'))%list /\
    map Games.game_id (games (db s1)) = map Games.game_id (games d0) /\
    (scores_consistent d0 -> scores_consistent (db s1)).
Proof.
  intros gid limit d0. unfold start_game, run_game_loop.
  change (create_game (red_model ext) (blue_model ext) scenario (db s))
    with (gid, d0).
  cbv beta iota. fold limit.
  set (w0 := setup_scenario ext scenario (start_containers ext (world s))).
  destruct (game_loop_spec limit gid (Z.to_nat (limit - 0))
              (mkSelf (Some gid) 0) (mkStore w0 d0) eq_refl eq_refl)
    as (self' & s1 & Hloop & Hgid & Hrange & Hnums & Hids & Hcons).
  cbn [round_number init db] in *.
  exists self', s1, w0. rewrite Hloop.
  unfold end_game, db_exec, modify. rewrite Hgid.
  repeat split; auto; lia.
Qed.

End WithWorld.

(** C2. At every point the orchestrator can be observed at - after an
    award, after any number of rounds of the loop, after a whole game - the
    cumulative score of each side of every Game is the sum of the point
    deltas of the Events recorded for that Game and side: [award_points]
    updates the score and records the Event together. *)
Theorem cumulative_score_is_sum_of_event_deltas (W : Type) (ext : Externals W)
    (s : Store W) :
  scores_consistent (db s) -> keys_below_counter (db s) ->
  (forall self t points kind round_id,
      exists s',
        award_points self t points kind round_id s = (Returned tt, s') /\
        scores_consistent (db s')) /\
  (forall rounds_to_play self gid,
      current_game_id self = Some gid ->
      exists self' s',
        game_loop ext rounds_to_play self s = (Returned tt, (self', s')) /\
        scores_consistent (db s')) /\
  (forall scenario config,
      exists self' s' g,
        start_game ext scenario config init s = (Returned tt, (self', s')) /\
        scores_consistent (db s') /\
        In g (games (db s')) /\
        current_game_id self' = Some (Games.game_id g) /\
        forall t, cumulative_score t g
                  = event_points (Games.game_id g) t (events (db s'))).
Proof.
  intros Hcons Hkeys. split; [| split].
  - intros self t points kind round_id. rewrite ScoringFacts.award_points_spec.
    eexists. split; [reflexivity |]. cbn [db].
    now apply ScoringFacts.apply_award_consistent.
  - intros limit self gid Hgid.
    destruct (game_loop_spec W ext limit gid _ self s eq_refl Hgid)
      as (self' & s' & Hloop & _ & _ & _ & _ & Hkeep).
    exists self', s'. split; [exact Hloop | now apply Hkeep].
  - intros scenario config.
    destruct (start_game_spec W ext scenario config s)
      as (self' & s1 & w0 & Hstart & _ & Hgid & _ & _ & Hids & Hkeep).
    set (gid := next_uuid (db s)) in *.
    assert (Hend : scores_consistent (complete_game (Some gid) (db s1))).
    { apply complete_game_consistent, Hkeep. now apply create_game_consistent. }
    assert (Hgame : In gid (map Games.game_id (games (complete_game (Some gid) (db s1))))).
    { rewrite complete_game_ids, Hids. cbn. rewrite map_app. apply in_or_app.
      right. now left. }
    apply in_map_iff in Hgame. destruct Hgame as (g & Hid & Hin).
    exists self', (mkStore (world s1) (complete_game (Some gid) (db s1))), g.
    split; [exact Hstart |]. cbn [db]. split; [exact Hend |].
    split; [exact Hin |]. split; [now rewrite Hid |].
    intros t. now apply Hend.
Qed.

(** An empty database is in step with itself and holds no key. *)
Lemma cumulative_score_is_sum_of_event_deltas_witness :
  exists self' s' g,
    start_game Lab.lab "dvwa_scenario" (mkConfig (Some 5)) init Lab.fresh
      = (Returned tt, (self', s')) /\
    scores_consistent (db s') /\
    In g (games (db s')) /\
    current_game_id self' = Some (Games.game_id g) /\
    forall t, cumulative_score t g
              = event_points (Games.game_id g) t (events (db s')).
Proof.
  assert (Hcons : scores_consistent (db Lab.fresh))
    by (unfold scores_consistent; cbn; intros g []).
  assert (Hkeys : keys_below_counter (db Lab.fresh))
    by (unfold keys_below_counter; cbn; split; [intros ? [] | split; intros ? ? []]).
  exact (proj2 (proj2 (cumulative_score_is_sum_of_event_deltas Lab.World Lab.lab
                         Lab.fresh Hcons Hkeys))
           "dvwa_scenario"%string (mkConfig (Some 5))).
Defined.

(** C6, as the code has it: the Round row is written before the round is
    scored and is not written again.  On the small range the first round's
    scan earns the red side 10 points, recorded as an Event and in the
    Game's score, while the persisted Round row holds 0 points for red. *)
Lemma persisted_round_lacks_scored_points :
  exists s' row e,
    play_round Lab.lab (mkSelf (Some 0%nat) 1) Lab.one_game = (Returned false, s') /\
    rounds (db s') = [row] /\
    Rounds.round_number row = 1 /\
    Rounds.red_points_earned row = 0 /\
    events (db s') = [e] /\
    Events.round_id e = Rounds.round_id row /\
    Events.team e = red /\
    Events.points_awarded e = 10 /\
    map Games.red_score (games (db s')) = [10] /\
    (Rounds.round_id row < Events.event_id e)%nat.
Proof.
  eexists. eexists. eexists.
  split; [vm_compute; reflexivity |].
  split; [vm_compute; reflexivity |].
  repeat split; vm_compute; reflexivity.
Qed.

(** C6, amended. In every loop iteration the Round row is persisted
    before the scoring step runs, and the scoring step is handed the row's
    key: the row carries the round number of the iteration, and the points
    of the round are recorded as Events that carry the row's key, were
    inserted after it, and are added to the Game's cumulative scores. *)
Theorem round_persisted_before_scoring (W : Type) (ext : Externals W)
    (self : Self) (s : Store W) :
  exists over s' row new red_result blue_result,
    play_round ext self s = (Returned over, s') /\
    rounds (db s') = (rounds (db s) ++ [row])%list /\
    Rounds.round_number row = round_number self /\
    Rounds.game_id row = current_game_id self /\
    events (db s') = (events (db s) ++ new)%list /\
    map award_of new = awards ext red_result blue_result /\
    Forall (fun e => Events.round_id e = Rounds.round_id row /\
                     (Rounds.round_id row < Events.event_id e)%nat) new /\
    (exists f,
        games (db s') = map f (games (db s)) /\
        forall g t,
          cumulative_score t (f g)
          = cumulative_score t g
            + (if same_game (current_game_id self) (Games.game_id g)
               then total t (awards ext red_result blue_result) else 0)).
Proof.
  destruct (play_round_spec W ext self s) as (rr & br & w & d1 & Hlog & Hplay).
  destruct (after_round_rounds W ext self w (db s) d1 rr br Hlog)
    as (row & Hrounds & Hrid & Hgame & Hnum & _).
  destruct (ScoringFacts.apply_awards_events (current_game_id self) (next_uuid d1)
              (awards ext rr br)
              (snd (log_round (current_game_id self) (round_number self) rr br d1)))
    as (new & Hev & Hmap & Hall & _).
  eexists. eexists. exists row, new, rr, br.
  split; [exact Hplay |]. split; [exact Hrounds |].
  split; [exact Hnum |]. split; [exact Hgame |].
  split; [| split; [exact Hmap | split]].
  - unfold after_round. cbn [db]. rewrite Hev. cbn [snd log_round events].
    destruct Hlog as (_ & _ & -> & _). reflexivity.
  - eapply Forall_impl; [| exact Hall]. cbn. rewrite Hrid.
    intros e (_ & -> & Hlt). split; [reflexivity | lia].
  - destruct (ScoringFacts.apply_awards_scores (current_game_id self) (next_uuid d1)
                (awards ext rr br)
                (snd (log_round (current_game_id self) (round_number self) rr br d1)))
      as (f & Hgames & Hf).
    exists f. unfold after_round. cbn [db]. rewrite Hgames. cbn [snd log_round games].
    destruct Hlog as (-> & _). split; [reflexivity |]. intros g t. apply Hf.
Qed.




End LoopFacts.

(* ===================================================================== *)
(** * Further properties: the executor, the denylist and the tables *)
(* ===================================================================== *)

Module MoreExecutorFacts.
Import Dicts Db Effects Game Scoring Notions.

Section WithWorld.
Variable W : Type.
Variable ext : Externals W.

Lemma decode_stream_ok (stream : option string) (text : string) (s : Store W) :
  stream_decodes ext stream text ->
  decode_stream ext stream s = (Returned text, s).
Proof.
  unfold stream_decodes, decode_stream. destruct stream as [bytes|].
  - destruct (Py.truthy bytes).
    + intros ->. reflexivity.
    + intros ->. reflexivity.
  - intros ->. reflexivity.
Qed.

Lemma decode_stream_raises (stream : option string) (e : exn) (s : Store W) :
  stream_fails ext stream e ->
  decode_stream ext stream s = (Raised e, s).
Proof.
  intros (bytes & -> & Htruthy & Hdecode). unfold decode_stream.
  now rewrite Htruthy, Hdecode.
Qed.

End WithWorld.

(** X1. When the workload is found and the exec call returns, the result
    holds the program's own exit code and the two decoded streams; a stream
    that is [None] or empty gives the empty string and is never decoded. *)
Theorem completed_command_result (W : Type) (ext : Externals W)
    (container command : string) (s : Store W)
    (c : Container) (w : W) (code : Z) (out err : option string) (w' : W)
    (text_out text_err : string) :
  containers_get ext container (world s) = (Returned c, w) ->
  exec_run ext c (bash_c command) true COMMAND_TIMEOUT w
    = (Returned (code, (out, err)), w') ->
  stream_decodes ext out text_out ->
  stream_decodes ext err text_err ->
  execute_in_container ext container command s
    = (Returned (mkCommandResult code text_out text_err), mkStore w' (db s)).
Proof.
  intros Hget Hexec Hout Herr.
  unfold execute_in_container, try_except, bind, sdk, ret.
  rewrite Hget. cbn. rewrite Hexec. cbn.
  rewrite (decode_stream_ok W ext out text_out _ Hout).
  rewrite (decode_stream_ok W ext err text_err _ Herr).
  reflexivity.
Qed.

(** On the range where nothing decodes, a program that prints nothing
    still gives its exit code: [false] exits with 1 and two [None] streams. *)
Lemma completed_command_result_witness :
  execute_in_container Lab.garbled "blue-target" "false" Lab.fresh
    = (Returned (mkCommandResult 1 "" ""),
       mkStore [("blue-target", bash_c "false")] Db.empty).
Proof.
  apply (completed_command_result Lab.World Lab.garbled "blue-target" "false"
           Lab.fresh "blue-target" [] 1 None None
           [("blue-target", bash_c "false")] "" ""); reflexivity.
Defined.

(** X2. Output that cannot be decoded turns a command that ran into a
    fault: the workload has run the program, but the result is exit status
    -1 with the decoding error as stderr, and the program's exit code and
    the other stream are dropped. *)
Theorem undecodable_output_is_a_fault (W : Type) (ext : Externals W)
    (container command : string) (s : Store W)
    (c : Container) (w : W) (code : Z) (out err : option string) (w' : W)
    (e : exn) :
  containers_get ext container (world s) = (Returned c, w) ->
  exec_run ext c (bash_c command) true COMMAND_TIMEOUT w
    = (Returned (code, (out, err)), w') ->
  stream_fails ext out e \/
  (exists text_out, stream_decodes ext out text_out /\ stream_fails ext err e) ->
  execute_in_container ext container command s
    = (Returned (mkCommandResult (-1) "" (str e)), mkStore w' (db s)).
Proof.
  intros Hget Hexec Hfail.
  unfold execute_in_container, try_except, bind, sdk, ret.
  rewrite Hget. cbn. rewrite Hexec. cbn.
  destruct Hfail as [Hout | (text_out & Hout & Herr)].
  - now rewrite (decode_stream_raises W ext out e _ Hout).
  - rewrite (decode_stream_ok W ext out text_out _ Hout).
    now rewrite (decode_stream_raises W ext err e _ Herr).
Qed.

Lemma undecodable_output_is_a_fault_witness :
  execute_in_container Lab.garbled "red-kali" "id" Lab.fresh
    = (Returned (mkCommandResult (-1) "" "invalid start byte"),
       mkStore [("red-kali", bash_c "id")] Db.empty).
Proof.
  apply (undecodable_output_is_a_fault Lab.World Lab.garbled "red-kali" "id"
           Lab.fresh "red-kali" [] 0 (Some "done"%string) None
           [("red-kali", bash_c "id")] (UnicodeDecodeError "invalid start byte"));
    [reflexivity | reflexivity |].
  left. exists "done"%string. repeat split.
Defined.

(** X3. When the workload is not found nothing is run: the result and the
    world are those the lookup left, whatever the exec call or the decoder
    would have done. *)
Theorem missing_workload_runs_nothing (W : Type) (ext ext' : Externals W)
    (container command : string) (s : Store W) (e : exn) (w : W) :
  containers_get ext container (world s) = (Raised e, w) ->
  containers_get ext' container (world s) = (Raised e, w) ->
  execute_in_container ext container command s
    = (Returned (mkCommandResult (-1) "" (str e)), mkStore w (db s)) /\
  execute_in_container ext' container command s
    = execute_in_container ext container command s.
Proof.
  intros Hget Hget'.
  rewrite (ExecutorFacts.execute_in_container_lookup_fault W ext container command s e w Hget).
  rewrite (ExecutorFacts.execute_in_container_lookup_fault W ext' container command s e w Hget').
  split; reflexivity.
Qed.

Lemma missing_workload_runs_nothing_witness :
  execute_in_container Lab.lab "ghost" "id" Lab.fresh
    = (Returned (mkCommandResult (-1) "" "No such container: ghost"), Lab.fresh) /\
  execute_in_container Lab.garbled "ghost" "id" Lab.fresh
    = execute_in_container Lab.lab "ghost" "id" Lab.fresh.
Proof.
  apply (missing_workload_runs_nothing Lab.World Lab.lab Lab.garbled "ghost" "id"
           Lab.fresh (NotFound "No such container: ghost") []); reflexivity.
Defined.

End MoreExecutorFacts.

Module MoreSafetyFacts.
Import Py Safety.

Lemma append_assoc (a b c : string) : ((a ++ b) ++ c = a ++ (b ++ c))%string.
Proof. induction a as [|x a IH]; cbn; [reflexivity | now rewrite IH]. Qed.

Lemma substring_of_wrap (needle inner before after : string) :
  substring_of needle inner -> substring_of needle (before ++ inner ++ after).
Proof.
  intros (pre & post & ->). exists (before ++ pre)%string, (post ++ after)%string.
  now rewrite !append_assoc.
Qed.

(** X4. A rejected command stays rejected inside any longer command: no
    text put before or after it makes [validate_command] accept it, so
    every part of an accepted command is itself accepted. *)
Theorem rejected_command_stays_rejected (command : string) :
  validate_command command = false ->
  forall before after,
    validate_command (before ++ command ++ after) = false /\
    (forall rest, validate_command (command ++ rest)%string = false) /\
    (forall rest, validate_command (rest ++ command)%string = false).
Proof.
  intros Hrej.
  assert (Hwrap : forall before after,
            validate_command (before ++ command ++ after) = false).
  { intros before after. unfold validate_command in *.
    apply SafetyFacts.validate_against_false in Hrej.
    destruct Hrej as (blocked & Hin & Hsub).
    apply SafetyFacts.validate_against_false. exists blocked.
    split; [exact Hin | now apply substring_of_wrap]. }
  intros before after. split; [apply Hwrap |]. split.
  - intros rest. apply (Hwrap ""%string rest).
  - intros rest. specialize (Hwrap rest ""%string).
    replace (command ++ "")%string with command in Hwrap; [exact Hwrap |].
    clear. induction command as [|x c IH]; cbn; [reflexivity | now rewrite <- IH].
Qed.

Lemma rejected_command_stays_rejected_witness :
  validate_command ("echo ok; " ++ "rm -rf /" ++ " --no-preserve-root") = false.
Proof.
  apply (rejected_command_stays_rejected "rm -rf /"); reflexivity.
Defined.

End MoreSafetyFacts.

Module TablesFacts.
Import Dicts Game Scoring Tables.

Lemma if_detected_in (cond : bool) (a x : Award) :
  In x (if_detected cond a) -> x = a.
Proof. destruct cond; cbn; [intros [<- | []]; reflexivity | intros []]. Qed.

(** X5. Every award [evaluate_round] makes is a row of the document's
    scoring tables for that team, under the row's name in snake case and
    with the row's points; red can only gain points in a round, and the
    penalties for a command timeout and for invalid command syntax are never
    applied. *)
Theorem awards_follow_the_tables (W : Type) (ext : Externals W)
    (red_result blue_result : TurnResult) (t : Team) (points : Z) (kind : string) :
  In (t, points, kind) (awards ext red_result blue_result) ->
  In (kind, points) (rows_for t) /\
  (t = red -> 0 < points) /\
  kind <> snake "Command timeout" /\
  kind <> snake "Invalid command syntax".
Proof.
  unfold awards. intros Hin.
  repeat (apply in_app_or in Hin; destruct Hin as [Hin | Hin]);
    apply if_detected_in in Hin; injection Hin as -> -> ->;
    (split; [vm_compute; tauto |]);
    (split; [first [reflexivity | discriminate] |]);
    split; vm_compute; discriminate.
Qed.

Lemma awards_follow_the_tables_witness :
  In ("port_scan_complete"%string, 10) (rows_for red) /\
  (red = red -> 0 < 10) /\
  "port_scan_complete"%string <> snake "Command timeout" /\
  "port_scan_complete"%string <> snake "Invalid command syntax".
Proof.
  apply (awards_follow_the_tables Lab.World Lab.lab
           (mkTurnResult "{}" "" "nmap" "22/tcp open  ssh" true 0 None)
           (mkTurnResult "{}" "" "none" "" true 0 None)
           red 10 "port_scan_complete").
  cbn. now left.
Defined.

Lemma round_in_some_range (n : Z) :
  1 <= n <= 30 ->
  exists r, In r Phases.PHASE_TABLE /\ Phases.covers n r = true.
Proof.
  intros Hn.
  assert (Hcase : n <= 5 \/ 6 <= n <= 15 \/ 16 <= n <= 25 \/ 26 <= n) by lia.
  destruct Hcase as [H | [H | [H | H]]];
    [exists (Phases.mkRange 1 5 Phases.reconnaissance)
    |exists (Phases.mkRange 6 15 Phases.initial_access)
    |exists (Phases.mkRange 16 25 Phases.privilege_escalation)
    |exists (Phases.mkRange 26 30 Phases.mission_completion)];
    (split; [cbn; tauto | apply PhasesFacts.covers_iff; cbn; lia]).
Qed.

(** X6. The phase ranges of the document split the rounds 1 to 30 with no
    gap and no overlap: a round number lies in some range exactly when it is
    between 1 and 30, it lies in one range only, and each range is as long
    as the round limit stated for its phase. *)
Theorem phase_table_partitions_rounds (n : Z) :
  (1 <= n <= 30 <->
   exists r, In r Phases.PHASE_TABLE /\ Phases.covers n r = true) /\
  (forall r1 r2,
      In r1 Phases.PHASE_TABLE -> In r2 Phases.PHASE_TABLE ->
      Phases.covers n r1 = true -> Phases.covers n r2 = true -> r1 = r2) /\
  (forall r, In r Phases.PHASE_TABLE ->
             In (Phases.phase r, Phases.last_round r - Phases.first_round r + 1)
               PHASE_ROUND_LIMITS).
Proof.
  split; [| split].
  - split.
    + apply round_in_some_range.
    + intros (r & Hin & Hc). apply PhasesFacts.covers_iff in Hc.
      cbn in Hin. destruct Hin as [<- | [<- | [<- | [<- | []]]]]; cbn in Hc; lia.
  - intros r1 r2 H1 H2 Hc1 Hc2.
    apply PhasesFacts.covers_iff in Hc1. apply PhasesFacts.covers_iff in Hc2.
    cbn in H1, H2.
    destruct H1 as [<- | [<- | [<- | [<- | []]]]];
      destruct H2 as [<- | [<- | [<- | [<- | []]]]];
      cbn in Hc1, Hc2; first [reflexivity | lia].
  - intros r Hin. cbn in Hin.
    destruct Hin as [<- | [<- | [<- | [<- | []]]]]; cbn; tauto.
Qed.

End TablesFacts.

(* ===================================================================== *)
(** * Further properties: what a turn and a round log *)
(* ===================================================================== *)

Module MoreTurnFacts.
Import Dicts Db Effects Game Scoring Notions.

Lemma apply_awards_logs (gid : option UUID) (rid : UUID) (l : list Award)
    (d : Database) :
  command_log (apply_awards gid rid l d) = command_log d /\
  telemetry (apply_awards gid rid l d) = telemetry d.
Proof.
  unfold apply_awards. revert d.
  induction l as [|[[t p] k] l IH]; intros d; [split; reflexivity |].
  cbn [fold_left]. destruct (IH (apply_award gid rid d (t, p, k))) as [-> ->].
  split; reflexivity.
Qed.

Section WithWorld.
Variable W : Type.
Variable ext : Externals W.

(** The red turn, step by step. *)
Lemma red_turn_detail (self : Self) (s : Store W) :
  exists obs decision res w2 w3,
    execute_in_container ext "red-kali" (Decision.command decision) (mkStore w2 (db s))
      = (Returned res, mkStore w3 (db s)) /\
    execute_red_team_turn ext self s
      = (Returned
           (mkTurnResult obs (Decision.reasoning decision) (Decision.command decision)
              (stdout res ++ stderr res) (exit_code res =? 0)
              (time_ms ext w3 - time_ms ext w2)
              (Some (match Decision.phase decision with
                     | Some p => p
                     | None => "unknown"%string
                     end))),
         mkStore w3
           (with_command_log
              (log_command ext (round_number self) red "red-kali"
                 (Decision.command decision) res
                 (time_ms ext w3 - time_ms ext w2) (db s)) (db s))).
Proof.
  unfold execute_red_team_turn, bind, collaborator, db_query, clock, gets.
  destruct (observe_environment ext (world s)) as [obs w1]. cbn.
  destruct (decide_action ext obs _ w1) as [decision w2]. cbn.
  destruct (ExecutorFacts.execute_in_container_returns W ext "red-kali"
              (Decision.command decision) (mkStore w2 (db s))) as (res & w3 & Hrun).
  cbn in Hrun. exists obs, decision, res, w2, w3. rewrite Hrun. cbn.
  split; reflexivity.
Qed.

(** The blue turn, step by step. *)
Lemma blue_turn_detail (self : Self) (s : Store W) :
  exists telemetry_text defense res ms w3,
    execute_blue_team_turn ext self s
      = (Returned
           (mkTurnResult telemetry_text (Defense.reasoning defense)
              (Defense.defensive_action defense)
              (stdout res ++ stderr res) (exit_code res =? 0) ms None),
         mkStore w3
           (with_telemetry
              (log_telemetry ext (round_number self) telemetry_text (db s)) (db s))).
Proof.
  unfold execute_blue_team_turn, bind, collaborator, db_query, clock, gets.
  destruct (monitor_system ext (world s)) as [telemetry_text w1]. cbn.
  destruct (decide_defense ext telemetry_text _ w1) as [defense w2]. cbn.
  exists telemetry_text, defense.
  destruct (String.eqb (Defense.defensive_action defense) "none"); cbn.
  - exists (mkCommandResult 0 "" ""), 0, w2. reflexivity.
  - destruct (ExecutorFacts.execute_in_container_returns W ext "blue-target"
                (Defense.defensive_action defense) (mkStore w2 (db s)))
      as (res & w3 & Hrun).
    cbn in Hrun. rewrite Hrun. cbn. eexists. eexists. eexists. reflexivity.
Qed.

(** One round, with the logging calls the two turns made. *)
Lemma play_round_detail (self : Self) (s : Store W) :
  exists red_result blue_result w res,
    let d0 := with_command_log
                (log_command ext (round_number self) red "red-kali"
                   (action red_result) res (execution_time_ms red_result) (db s))
                (db s) in
    let d1 := with_telemetry
                (log_telemetry ext (round_number self) (observation blue_result) d0)
                d0 in
    success red_result = (exit_code res =? 0) /\
    play_round ext self s
    = (Returned (check_game_over ext self (after_round ext self w d1 red_result blue_result)),
       after_round ext self w d1 red_result blue_result).
Proof.
  unfold play_round, bind.
  destruct (red_turn_detail self s) as (obs & decision & res & w2 & w3 & _ & Hred).
  rewrite Hred.
  match goal with
  | |- context [execute_blue_team_turn ext self ?st] =>
      destruct (blue_turn_detail self st)
        as (metrics & defense & bres & bms & w4 & Hblue)
  end.
  rewrite Hblue. cbn [db] in *.
  exists (mkTurnResult obs (Decision.reasoning decision) (Decision.command decision)
            (stdout res ++ stderr res) (exit_code res =? 0)
            (time_ms ext w3 - time_ms ext w2)
            (Some (match Decision.phase decision with
                   | Some p => p
                   | None => "unknown"%string
                   end))),
         (mkTurnResult metrics (Defense.reasoning defense)
            (Defense.defensive_action defense)
            (stdout bres ++ stderr bres) (exit_code bres =? 0) bms None),
         w4, res.
  cbn zeta. split; [reflexivity |].
  unfold db_insert. cbn [db world log_round fst snd].
  rewrite ScoringFacts.evaluate_round_spec. reflexivity.
Qed.

End WithWorld.


(** X8. A blue turn makes no [log_command] call, whether or not it ran a
    defensive command: whatever the database's [log_command] would do, the
    [command_log] table is the one the turn found.  It makes one
    [log_telemetry] call, on the database as found, with the round counter
    as [round_id] and the telemetry the turn reports as its observation;
    its dict has no phase; no other table changes. *)
Theorem blue_turn_logs_no_command (W : Type) (ext : Externals W)
    (self : Self) (s : Store W) :
  exists tr s',
    execute_blue_team_turn ext self s = (Returned tr, s') /\
    command_log (db s') = command_log (db s) /\
    telemetry (db s')
      = log_telemetry ext (round_number self) (observation tr) (db s) /\
    phase tr = None /\
    games (db s') = games (db s) /\
    rounds (db s') = rounds (db s) /\
    events (db s') = events (db s).
Proof.
  destruct (blue_turn_detail W ext self s)
    as (metrics & defense & res & ms & w3 & Hturn).
  eexists. eexists. split; [exact Hturn |].
  cbn. repeat split; reflexivity.
Qed.

(** X9. Each round of the loop makes exactly one [log_command] call and
    after it one [log_telemetry] call, both with the round counter of that
    round as [round_id] and both before the round is persisted: the command
    logged is the red action the Round row holds, with the elapsed time the
    row holds, and the metrics logged are the blue observation of the row.
    Persisting the round and scoring it write neither logging table. *)
Theorem round_logs_one_command (W : Type) (ext : Externals W)
    (self : Self) (s : Store W) :
  exists over s' res row,
    play_round ext self s = (Returned over, s') /\
    rounds (db s') = (rounds (db s) ++ [row])%list /\
    Rounds.red_success row = (exit_code res =? 0) /\
    let d0 := with_command_log
                (log_command ext (round_number self) red "red-kali"
                   (Rounds.red_action row) res (Rounds.red_execution_time_ms row)
                   (db s))
                (db s) in
    command_log (db s') = command_log d0 /\
    telemetry (db s')
      = log_telemetry ext (round_number self) (Rounds.blue_observation row) d0.
Proof.
  destruct (play_round_detail W ext self s)
    as (rr & br & w & res & Hflag & Hplay).
  cbn zeta in Hplay.
  eexists. eexists. exists res. eexists. split; [exact Hplay |].
  unfold after_round. cbn [db].
  rewrite ScoringFacts.apply_awards_rounds.
  match goal with
  | |- context [apply_awards ?g ?r ?l ?d] =>
      destruct (apply_awards_logs g r l d) as [-> ->]
  end.
  cbn. repeat split; try reflexivity. exact Hflag.
Qed.

End MoreTurnFacts.

(* ===================================================================== *)
(** * Further properties: the points of a round *)
(* ===================================================================== *)

Module MoreScoringFacts.
Import Dicts Db Effects Game Scoring Notions.

Lemma same_but_scores_refl (g : Games.row) : same_but_scores g g.
Proof. unfold same_but_scores. tauto. Qed.

Lemma same_but_scores_trans (g1 g2 g3 : Games.row) :
  same_but_scores g1 g2 -> same_but_scores g2 g3 -> same_but_scores g1 g3.
Proof.
  unfold same_but_scores. intros (? & ? & ? & ? & ? & ?) (? & ? & ? & ? & ? & ?).
  repeat split; congruence.
Qed.

Lemma add_points_same_but_scores (t : Team) (p : Z) (g : Games.row) :
  same_but_scores g (add_points t p g).
Proof. unfold same_but_scores. destruct t; cbn; tauto. Qed.

(** A run of awards on one row: the scores move by the totals, nothing
    else changes. *)
Lemma fold_awards_row (l : list Award) (g : Games.row) :
  let g' := fold_left (fun g (a : Award) => add_points (fst (fst a)) (snd (fst a)) g) l g in
  same_but_scores g g' /\
  Games.red_score g' = Games.red_score g + total red l /\
  Games.blue_score g' = Games.blue_score g + total blue l.
Proof.
  revert g. induction l as [|[[t p] k] l IH]; intros g; cbn zeta.
  - cbn. split; [apply same_but_scores_refl | lia].
  - cbn [fold_left fst snd].
    destruct (IH (add_points t p g)) as (Hsame & Hred & Hblue).
    split; [| split].
    + eapply same_but_scores_trans; [apply add_points_same_but_scores | exact Hsame].
    + rewrite Hred. unfold total. destruct t; cbn; lia.
    + rewrite Hblue. unfold total. destruct t; cbn; lia.
Qed.

Lemma apply_awards_games_bump (gid : option UUID) (rid : UUID) (l : list Award)
    (d : Database) :
  games (apply_awards gid rid l d) = map (bump gid l) (games d).
Proof.
  unfold apply_awards. revert d.
  induction l as [|[[t p] k] l IH]; intros d.
  - cbn. rewrite <- (map_id (games d)) at 1. apply map_ext. intros g.
    unfold bump. now destruct (same_game gid (Games.game_id g)).
  - cbn [fold_left]. rewrite IH, ScoringFacts.apply_award_games, map_map.
    apply map_ext. intros g. unfold bump.
    destruct (same_game gid (Games.game_id g)) eqn:Hsame.
    + rewrite ScoringFacts.add_points_game_id, Hsame. reflexivity.
    + now rewrite Hsame.
Qed.

Lemma bump_other (gid : option UUID) (l : list Award) (g : Games.row) :
  same_game gid (Games.game_id g) = false -> bump gid l g = g.
Proof. intros H. unfold bump. now rewrite H. Qed.

Lemma bump_row (gid : option UUID) (l : list Award) (g : Games.row) :
  same_but_scores g (bump gid l g) /\
  Games.red_score (bump gid l g)
  = Games.red_score g + (if same_game gid (Games.game_id g) then total red l else 0) /\
  Games.blue_score (bump gid l g)
  = Games.blue_score g + (if same_game gid (Games.game_id g) then total blue l else 0).
Proof.
  unfold bump. destruct (same_game gid (Games.game_id g)).
  - apply fold_awards_row.
  - split; [apply same_but_scores_refl | lia].
Qed.

Lemma awards_totals (W : Type) (ext : Externals W) (rr br : TurnResult) :
  total red (awards ext rr br) = red_points ext rr /\
  total blue (awards ext rr br) = blue_points ext br.
Proof.
  unfold awards, red_points, blue_points, total.
  destruct (detect_port_scan ext rr),
    (detect_service_identification ext rr),
    (detect_shell_access ext rr),
    (detect_attack_blocked ext br),
    (detect_ip_blocked ext br),
    (detect_service_down ext br); split; reflexivity.
Qed.

Lemma red_points_bounds (W : Type) (ext : Externals W) (rr : TurnResult) :
  0 <= red_points ext rr <= 125.
Proof.
  unfold red_points.
  destruct (detect_port_scan ext rr), (detect_service_identification ext rr),
    (detect_shell_access ext rr); lia.
Qed.

Lemma blue_points_bounds (W : Type) (ext : Externals W) (br : TurnResult) :
  -50 <= blue_points ext br <= 125.
Proof.
  unfold blue_points.
  destruct (detect_attack_blocked ext br), (detect_ip_blocked ext br),
    (detect_service_down ext br); lia.
Qed.

(** X10. Scoring a round moves the red score of the current Game by 10
    for a port scan, 15 for a service identification and 100 for shell
    access, as detected on the red result alone, so by 0 to 125 points and
    never down; it moves the blue score by 50 for a blocked attack, 75 for a
    banned address and -50 for a service that is down, as detected on the
    blue result alone, so by -50 to 125 points.  The Game's other columns
    and every other Game stay as they were. *)
Theorem round_score_change (W : Type) (ext : Externals W) (self : Self)
    (round_id : UUID) (red_result blue_result : TurnResult) (s : Store W) :
  exists s' f,
    evaluate_round ext self round_id red_result blue_result s = (Returned tt, s') /\
    games (db s') = map f (games (db s)) /\
    0 <= red_points ext red_result <= 125 /\
    -50 <= blue_points ext blue_result <= 125 /\
    forall g,
      same_but_scores g (f g) /\
      (same_game (current_game_id self) (Games.game_id g) = false -> f g = g) /\
      (same_game (current_game_id self) (Games.game_id g) = true ->
         Games.red_score (f g) = Games.red_score g + red_points ext red_result /\
         Games.blue_score (f g) = Games.blue_score g + blue_points ext blue_result).
Proof.
  rewrite ScoringFacts.evaluate_round_spec.
  eexists. exists (bump (current_game_id self) (awards ext red_result blue_result)).
  split; [reflexivity |]. cbn [db].
  split; [apply apply_awards_games_bump |].
  split; [apply red_points_bounds |]. split; [apply blue_points_bounds |].
  intros g.
  destruct (bump_row (current_game_id self) (awards ext red_result blue_result) g)
    as (Hsame & Hred & Hblue).
  destruct (awards_totals W ext red_result blue_result) as [Htr Htb].
  split; [exact Hsame |]. split; [apply bump_other |].
  intros Hgame. rewrite Hgame in Hred, Hblue. rewrite Hred, Hblue, Htr, Htb.
  split; reflexivity.
Qed.

End MoreScoringFacts.

(* ===================================================================== *)
(** * Further properties: a whole game *)
(* ===================================================================== *)

Module MoreLoopFacts.
Import Dicts Db Effects Game Scoring Notions.

Lemma round_span_snoc (a b : Z) :
  a <= b -> round_span a (b + 1) = (round_span a b ++ [b + 1])%list.
Proof.
  intros H. unfold round_span.
  replace (Z.to_nat (b + 1 - a)) with (S (Z.to_nat (b - a))) by lia.
  rewrite seq_S, map_app. cbn [map]. do 2 f_equal. lia.
Qed.

Lemma round_span_in (a b n : Z) : In n (round_span a b) <-> a < n <= b.
Proof.
  unfold round_span. rewrite in_map_iff. split.
  - intros (i & <- & Hin). apply in_seq in Hin. lia.
  - intros H. exists (Z.to_nat (n - a)). split; [lia |]. apply in_seq. lia.
Qed.

Lemma round_span_length (a b : Z) :
  List.length (round_span a b) = Z.to_nat (b - a).
Proof. unfold round_span. now rewrite length_map, length_seq. Qed.

Section WithWorld.
Variable W : Type.
Variable ext : Externals W.

Lemma after_round_events (self : Self) (w : W) (d d1 : Database)
    (rr br : TurnResult) :
  logged d d1 ->
  exists new,
    events (db (after_round ext self w d1 rr br)) = (events d ++ new)%list /\
    Forall (fun e => Events.game_id e = current_game_id self /\
                     Events.round_id e = next_uuid d1) new.
Proof.
  intros (_ & _ & Hevents & _). unfold after_round. cbn [db].
  destruct (ScoringFacts.apply_awards_events (current_game_id self) (next_uuid d1)
              (awards ext rr br)
              (snd (log_round (current_game_id self) (round_number self) rr br d1)))
    as (new & Hev & _ & Hall & _).
  exists new. rewrite Hev. cbn [snd log_round events]. rewrite Hevents.
  split; [reflexivity |].
  eapply Forall_impl; [| exact Hall]. cbn beta. tauto.
Qed.

Lemma after_round_games (self : Self) (w : W) (d d1 : Database)
    (rr br : TurnResult) :
  logged d d1 ->
  games (db (after_round ext self w d1 rr br))
  = map (bump (current_game_id self) (awards ext rr br)) (games d).
Proof.
  intros (Hgames & _). unfold after_round. cbn [db].
  rewrite MoreScoringFacts.apply_awards_games_bump. cbn [snd log_round games].
  now rewrite Hgames.
Qed.

(** A property kept by every round is kept by the loop, which returns; it
    stops below [max_rounds] only on a round that [check_game_over] ends. *)
Lemma game_loop_invariant (max_rounds : Z) (I : Self -> Store W -> Prop) :
  (forall self s w d1 rr br,
      I self s -> round_number self < max_rounds -> logged (db s) d1 ->
      I (next_round self) (after_round ext (next_round self) w d1 rr br)) ->
  forall (n : nat) (self : Self) (s : Store W),
    Z.to_nat (max_rounds - round_number self) = n ->
    I self s ->
    exists self' s',
      game_loop ext max_rounds self s = (Returned tt, (self', s')) /\
      I self' s' /\
      (round_number self' < max_rounds -> check_game_over ext self' s' = true) /\
      (max_rounds <= round_number self -> self' = self /\ s' = s).
Proof.
  intros Hstep. induction n as [|k IH]; intros self s Hn HI;
    rewrite LoopFacts.game_loop_step.
  - assert (Hge : (round_number self <? max_rounds) = false)
      by (apply Z.ltb_ge; lia).
    rewrite Hge. exists self, s. repeat split; auto. lia.
  - assert (Hlt : round_number self < max_rounds) by lia.
    apply Z.ltb_lt in Hlt as Hb. rewrite Hb.
    destruct (LoopFacts.play_round_spec W ext (next_round self) s)
      as (rr & br & w & d1 & Hlog & Hplay).
    rewrite Hplay.
    specialize (Hstep self s w d1 rr br HI Hlt Hlog).
    destruct (check_game_over ext (next_round self)
                (after_round ext (next_round self) w d1 rr br)) eqn:Hover.
    + eexists. eexists. split; [reflexivity |]. split; [exact Hstep |].
      split; [intros _; exact Hover | lia].
    + destruct (IH (next_round self) (after_round ext (next_round self) w d1 rr br))
        as (self' & s' & Hloop & HI' & Hstop & _); [cbn; lia | exact Hstep |].
      exists self', s'. split; [exact Hloop |]. split; [exact HI' |].
      split; [exact Hstop | lia].
Qed.

Lemma grown_by_start (gid : UUID) (self : Self) (d : Database) :
  grown_by gid (round_number self) d self d.
Proof.
  exists [], []. rewrite !app_nil_r, LoopFacts.round_span_nil by lia.
  repeat split; constructor.
Qed.

Lemma grown_by_step (gid : UUID) (r0 : Z) (d0 : Database) (self : Self)
    (s : Store W) (w : W) (d1 : Database) (rr br : TurnResult) :
  r0 <= round_number self -> current_game_id self = Some gid ->
  grown_by gid r0 d0 self (db s) -> logged (db s) d1 ->
  grown_by gid r0 d0 (next_round self)
    (db (after_round ext (next_round self) w d1 rr br)).
Proof.
  intros Hr0 Hgid (new_rounds & new_events & Hrounds & Hevents & Hnums & Hall_r & Hall_e) Hlog.
  destruct (LoopFacts.after_round_rounds W ext (next_round self) w (db s) d1 rr br Hlog)
    as (row & Hrow & Hrid & Hgame & Hnum & _).
  destruct (after_round_events (next_round self) w (db s) d1 rr br Hlog)
    as (new & Hnew & Hall_new).
  cbn [next_round current_game_id round_number] in Hgame, Hnum, Hall_new.
  exists (new_rounds ++ [row])%list, (new_events ++ new)%list.
  split; [rewrite Hrow, Hrounds; now rewrite app_assoc |].
  split; [rewrite Hnew, Hevents; now rewrite app_assoc |].
  split; [| split].
  - cbn [next_round round_number]. rewrite map_app, Hnums, round_span_snoc by exact Hr0.
    cbn [map]. now rewrite Hnum.
  - apply Forall_app. split; [exact Hall_r |]. constructor; [congruence | constructor].
  - apply Forall_app. split.
    + eapply Forall_impl; [| exact Hall_e]. cbn beta.
      intros e (Hg & r & Hin & Hid). split; [exact Hg |].
      exists r. split; [apply in_or_app; now left | exact Hid].
    + eapply Forall_impl; [| exact Hall_new]. cbn beta.
      intros e (Hg & Hid). split; [congruence |].
      exists row. split; [apply in_or_app; right; now left | congruence].
Qed.

Lemma scores_within_start (gid : UUID) (self : Self) (d : Database) :
  scores_within gid (round_number self) d self d.
Proof.
  exists (fun g => g). split; [now rewrite map_id |].
  intros g. split; [reflexivity |].
  split; [apply MoreScoringFacts.same_but_scores_refl | lia].
Qed.

Lemma scores_within_step (gid : UUID) (r0 : Z) (d0 : Database) (self : Self)
    (s : Store W) (w : W) (d1 : Database) (rr br : TurnResult) :
  r0 <= round_number self -> current_game_id self = Some gid ->
  scores_within gid r0 d0 self (db s) -> logged (db s) d1 ->
  scores_within gid r0 d0 (next_round self)
    (db (after_round ext (next_round self) w d1 rr br)).
Proof.
  intros Hr0 Hgid (f & Hgames & Hf) Hlog.
  exists (fun g => bump (Some gid) (awards ext rr br) (f g)).
  split.
  { rewrite (after_round_games (next_round self) w (db s) d1 rr br Hlog).
    cbn [next_round current_game_id]. now rewrite Hgid, Hgames, map_map. }
  cbn [next_round round_number].
  intros g. destruct (Hf g) as (Hother & Hsame & Hred & Hblue).
  destruct (MoreScoringFacts.bump_row (Some gid) (awards ext rr br) (f g))
    as (Hsame' & Hred' & Hblue').
  destruct (MoreScoringFacts.awards_totals W ext rr br) as [Htr Htb].
  pose proof (MoreScoringFacts.red_points_bounds W ext rr) as Hrb.
  pose proof (MoreScoringFacts.blue_points_bounds W ext br) as Hbb.
  assert (Hid : Games.game_id (f g) = Games.game_id g) by apply Hsame.
  rewrite Hid, Htr in Hred'. rewrite Hid, Htb in Hblue'.
  split; [| split].
  - intros Hno. rewrite (Hother Hno). apply MoreScoringFacts.bump_other. exact Hno.
  - eapply MoreScoringFacts.same_but_scores_trans; [exact Hsame | exact Hsame'].
  - rewrite Hred', Hblue'.
    destruct (same_game (Some gid) (Games.game_id g)); lia.
Qed.

(** What a run of the loop for the Game [gid] leaves. *)
Lemma played_game (max_rounds : Z) (gid : UUID) (self : Self) (s : Store W) :
  current_game_id self = Some gid ->
  exists self' s',
    game_loop ext max_rounds self s = (Returned tt, (self', s')) /\
    current_game_id self' = Some gid /\
    round_number self <= round_number self'
      <= Z.max (round_number self) max_rounds /\
    grown_by gid (round_number self) (db s) self' (db s') /\
    scores_within gid (round_number self) (db s) self' (db s') /\
    (round_number self' < max_rounds -> check_game_over ext self' s' = true) /\
    (max_rounds <= round_number self -> self' = self /\ s' = s).
Proof.
  intros Hgid.
  set (r0 := round_number self). set (d0 := db s).
  destruct (game_loop_invariant max_rounds
              (fun self1 s1 =>
                 current_game_id self1 = Some gid /\
                 r0 <= round_number self1 <= Z.max r0 max_rounds /\
                 grown_by gid r0 d0 self1 (db s1) /\
                 scores_within gid r0 d0 self1 (db s1)))
    with (n := Z.to_nat (max_rounds - round_number self)) (self := self) (s := s)
    as (self' & s' & Hloop & (Hgid' & Hrange & Hgrown & Hscores) & Hstop & Hnone).
  - intros self1 s1 w d1 rr br (Hg & Hr & Hgr & Hsc) Hlt Hlog.
    split; [exact Hg |]. split; [cbn; lia |].
    split; [apply (grown_by_step gid r0 d0 self1 s1 w d1 rr br)
           | apply (scores_within_step gid r0 d0 self1 s1 w d1 rr br)]; auto; lia.
  - reflexivity.
  - split; [exact Hgid |]. split; [lia |].
    split; [apply grown_by_start | apply scores_within_start].
  - exists self', s'. subst r0 d0.
    split; [exact Hloop |]. split; [exact Hgid' |]. split; [lia |].
    split; [exact Hgrown |]. split; [exact Hscores |].
    split; [exact Hstop | exact Hnone].
Qed.

(** [start_game] on any orchestrator state: the game is created, the loop
    runs from the counter as it stands, the game is marked completed. *)
Lemma start_game_outcome (scenario : string) (config : Config) (self : Self)
    (s : Store W) :
  let gid := next_uuid (db s) in
  let limit := match max_rounds config with Some n => n | None => 30 end in
  let d0 := snd (create_game (red_model ext) (blue_model ext) scenario (db s)) in
  let w0 := setup_scenario ext scenario (start_containers ext (world s)) in
  exists self' s1,
    start_game ext scenario config self s
      = (Returned tt, (self', mkStore (world s1) (complete_game (Some gid) (db s1)))) /\
    current_game_id self' = Some gid /\
    round_number self <= round_number self' <= Z.max (round_number self) limit /\
    grown_by gid (round_number self) d0 self' (db s1) /\
    scores_within gid (round_number self) d0 self' (db s1) /\
    (round_number self' < limit -> check_game_over ext self' s1 = true) /\
    (limit <= round_number self ->
       self' = mkSelf (Some gid) (round_number self) /\ s1 = mkStore w0 d0).
Proof.
  intros gid limit d0 w0. unfold start_game, run_game_loop.
  change (create_game (red_model ext) (blue_model ext) scenario (db s))
    with (gid, d0).
  cbv beta iota. fold limit. fold w0.
  destruct (played_game limit gid (mkSelf (Some gid) (round_number self))
              (mkStore w0 d0) eq_refl)
    as (self' & s1 & Hloop & Hgid & Hrange & Hgrown & Hscores & Hstop & Hnone).
  cbn [round_number db] in *.
  exists self', s1. rewrite Hloop.
  unfold end_game, db_exec, modify. rewrite Hgid.
  split; [reflexivity |]. split; [reflexivity |]. split; [exact Hrange |].
  split; [exact Hgrown |]. split; [exact Hscores |].
  split; [exact Hstop | exact Hnone].
Qed.

End WithWorld.

(** X11. A game only adds to the history: after [start_game], on any
    orchestrator and database, the [rounds] and [events] tables are the old
    tables with new rows at the end, every new row belongs to the new Game,
    and there is one new Round row per round played. *)
Theorem history_is_append_only (W : Type) (ext : Externals W)
    (scenario : string) (config : Config) (self : Self) (s : Store W) :
  exists self' s' new_rounds new_events,
    start_game ext scenario config self s = (Returned tt, (self', s')) /\
    rounds (db s') = (rounds (db s) ++ new_rounds)%list /\
    events (db s') = (events (db s) ++ new_events)%list /\
    Forall (fun r => Rounds.game_id r = Some (next_uuid (db s))) new_rounds /\
    Forall (fun e => Events.game_id e = Some (next_uuid (db s))) new_events /\
    List.length new_rounds = Z.to_nat (round_number self' - round_number self).
Proof.
  destruct (start_game_outcome W ext scenario config self s)
    as (self' & s1 & Hstart & _ & _ & Hgrown & _).
  destruct Hgrown as (new_rounds & new_events & Hrounds & Hevents & Hnums & Hall_r & Hall_e).
  eexists. eexists. exists new_rounds, new_events.
  split; [exact Hstart |]. cbn [db complete_game rounds events].
  split; [exact Hrounds |]. split; [exact Hevents |]. split; [exact Hall_r |].
  split.
  - eapply Forall_impl; [| exact Hall_e]. cbn beta. tauto.
  - rewrite <- (length_map Rounds.round_number), Hnums. apply round_span_length.
Qed.

(** X12. [start_game] does not reset the round counter: the rounds of the
    new Game are numbered on from the counter the orchestrator already
    holds, one number per round and in order, up to [max_rounds] at most, so
    on an orchestrator that has played before no round of the new Game has
    the number 1. *)
Theorem round_numbers_continue_from_counter (W : Type) (ext : Externals W)
    (scenario : string) (config : Config) (self : Self) (s : Store W) :
  exists self' s' new_rounds,
    start_game ext scenario config self s = (Returned tt, (self', s')) /\
    rounds (db s') = (rounds (db s) ++ new_rounds)%list /\
    map Rounds.round_number new_rounds
      = round_span (round_number self) (round_number self') /\
    round_number self <= round_number self'
      <= Z.max (round_number self)
           (match max_rounds config with Some n => n | None => 30 end) /\
    (forall r, In r new_rounds ->
               round_number self < Rounds.round_number r <= round_number self').
Proof.
  destruct (start_game_outcome W ext scenario config self s)
    as (self' & s1 & Hstart & _ & Hrange & Hgrown & _).
  destruct Hgrown as (new_rounds & new_events & Hrounds & _ & Hnums & _).
  eexists. eexists. exists new_rounds.
  split; [exact Hstart |]. cbn [db complete_game rounds].
  split; [exact Hrounds |]. split; [exact Hnums |]. split; [exact Hrange |].
  intros r Hin. apply round_span_in. rewrite <- Hnums. now apply in_map.
Qed.

(** X13. A game keeps the Events tied to the Rounds: if every Event in the
    database refers to a Round row of its own Game before [start_game], the
    same holds after it. *)
Theorem events_keep_referring_to_rounds (W : Type) (ext : Externals W)
    (scenario : string) (config : Config) (self : Self) (s : Store W) :
  events_reference_rounds (db s) ->
  exists self' s',
    start_game ext scenario config self s = (Returned tt, (self', s')) /\
    events_reference_rounds (db s').
Proof.
  intros Hrefs.
  destruct (start_game_outcome W ext scenario config self s)
    as (self' & s1 & Hstart & _ & _ & Hgrown & _).
  destruct Hgrown as (new_rounds & new_events & Hrounds & Hevents & _ & Hall_r & Hall_e).
  eexists. eexists. split; [exact Hstart |].
  intros e Hin. cbn [db complete_game rounds events] in *.
  rewrite Hevents in Hin. rewrite Hrounds.
  cbn [snd create_game rounds events] in *.
  apply in_app_or in Hin. destruct Hin as [Hold | Hnew].
  - destruct (Hrefs e Hold) as (r & Hr & Hid & Hg).
    exists r. split; [apply in_or_app; now left | split; assumption].
  - rewrite Forall_forall in Hall_e, Hall_r.
    destruct (Hall_e e Hnew) as (Hg & r & Hr & Hid).
    exists r. split; [apply in_or_app; now right |].
    split; [exact Hid |]. rewrite Hg. now apply Hall_r.
Qed.

Lemma events_keep_referring_to_rounds_witness :
  exists self' s',
    start_game Lab.lab "dvwa_scenario" (mkConfig (Some 3)) init Lab.fresh
      = (Returned tt, (self', s')) /\
    events_reference_rounds (db s').
Proof.
  apply (events_keep_referring_to_rounds Lab.World Lab.lab "dvwa_scenario"
           (mkConfig (Some 3)) init Lab.fresh).
  intros e [].
Defined.

Lemma final_games (W : Type) (ext : Externals W) (gid : UUID) (r0 : Z)
    (d0 : Database) (self' : Self) (d1 : Database) (old : list Games.row)
    (new : Games.row) :
  games d0 = (old ++ [new])%list -> Games.game_id new = gid ->
  scores_within gid r0 d0 self' d1 ->
  exists f g,
    games (complete_game (Some gid) d1) = (map f old ++ [g])%list /\
    (forall x, In x old -> (Games.game_id x < gid)%nat -> f x = x) /\
    (Games.game_id g = Games.game_id new /\
     Games.red_team_model g = Games.red_team_model new /\
     Games.blue_team_model g = Games.blue_team_model new /\
     Games.scenario g = Games.scenario new /\
     Games.winner g = Games.winner new) /\
    Games.status g = "completed"%string /\
    Games.red_score new <= Games.red_score g
      <= Games.red_score new + 125 * (round_number self' - r0) /\
    Games.blue_score new - 50 * (round_number self' - r0) <= Games.blue_score g
      <= Games.blue_score new + 125 * (round_number self' - r0).
Proof.
  intros Hgames Hid (f & Hmap & Hf).
  set (finish := fun g => if same_game (Some gid) (Games.game_id g)
                          then mark_completed g else g).
  exists (fun x => finish (f x)), (finish (f new)).
  split.
  { cbn [complete_game games]. fold finish.
    rewrite Hmap, Hgames, !map_app, map_map. reflexivity. }
  split.
  { intros x _ Hlt.
    assert (Hno : same_game (Some gid) (Games.game_id x) = false)
      by (cbn; apply Nat.eqb_neq; lia).
    destruct (Hf x) as (Hother & _). rewrite (Hother Hno).
    unfold finish. now rewrite Hno. }
  destruct (Hf new) as (_ & Hsame & Hred & Hblue).
  assert (Hyes : same_game (Some gid) (Games.game_id (f new)) = true).
  { destruct Hsame as (-> & _). rewrite Hid. cbn. apply Nat.eqb_refl. }
  unfold finish. rewrite Hyes.
  split; [| split; [reflexivity | split; [exact Hred | exact Hblue]]].
  unfold same_but_scores in Hsame. cbn. tauto.
Qed.

(** X14. A game leaves every other Game alone: on a database whose keys
    lie below the key counter, [start_game] leaves the [games] table as it
    was, row for row, with one row added at the end for the new Game, which
    carries the scenario and the two agents' models and is marked
    completed. *)
Theorem other_games_untouched (W : Type) (ext : Externals W)
    (scenario : string) (config : Config) (self : Self) (s : Store W) :
  keys_below_counter (db s) ->
  exists self' s' g,
    start_game ext scenario config self s = (Returned tt, (self', s')) /\
    games (db s') = (games (db s) ++ [g])%list /\
    Games.game_id g = next_uuid (db s) /\
    Games.scenario g = scenario /\
    Games.red_team_model g = red_model ext /\
    Games.blue_team_model g = blue_model ext /\
    Games.status g = "completed"%string.
Proof.
  intros (Hkeys & _).
  destruct (start_game_outcome W ext scenario config self s)
    as (self' & s1 & Hstart & _ & _ & _ & Hscores & _).
  destruct (final_games W ext (next_uuid (db s)) (round_number self)
              (snd (create_game (red_model ext) (blue_model ext) scenario (db s)))
              self' (db s1)
              (games (db s))
              (Games.mk (next_uuid (db s)) (red_model ext) (blue_model ext) scenario
                 0 0 None "running")
              eq_refl eq_refl Hscores)
    as (f & g & Hgames & Hold & Hsame & Hstatus & _).
  eexists. eexists. exists g. split; [exact Hstart |]. cbn [db].
  split.
  - rewrite Hgames. f_equal. rewrite <- (map_id (games (db s))) at 2.
    apply map_ext_in. intros x Hin. apply Hold; [exact Hin | now apply Hkeys].
  - cbn in Hsame. destruct Hsame as (H1 & H2 & H3 & H4 & _).
    repeat split; auto.
Qed.

Lemma other_games_untouched_witness :
  exists self' s' g,
    start_game Lab.lab "second" (mkConfig (Some 2)) init Lab.one_game
      = (Returned tt, (self', s')) /\
    games (db s') = (games (db Lab.one_game) ++ [g])%list /\
    Games.game_id g = next_uuid (db Lab.one_game) /\
    Games.scenario g = "second"%string /\
    Games.red_team_model g = red_model Lab.lab /\
    Games.blue_team_model g = blue_model Lab.lab /\
    Games.status g = "completed"%string.
Proof.
  apply (other_games_untouched Lab.World Lab.lab "second" (mkConfig (Some 2))
           init Lab.one_game).
  unfold keys_below_counter. cbn. split; [| split; intros ? ? []].
  intros g [<- | []]. cbn. lia.
Defined.

(** X15. The final scores of a game are bounded by the rounds it played:
    with [n] rounds played the Game's red score is between 0 and [125 n]
    and its blue score between [-50 n] and [125 n]. *)
Theorem game_scores_bounded_by_rounds (W : Type) (ext : Externals W)
    (scenario : string) (config : Config) (self : Self) (s : Store W) :
  exists self' s' earlier g,
    start_game ext scenario config self s = (Returned tt, (self', s')) /\
    games (db s') = (earlier ++ [g])%list /\
    Games.game_id g = next_uuid (db s) /\
    0 <= round_number self' - round_number self /\
    0 <= Games.red_score g <= 125 * (round_number self' - round_number self) /\
    -50 * (round_number self' - round_number self) <= Games.blue_score g
      <= 125 * (round_number self' - round_number self).
Proof.
  destruct (start_game_outcome W ext scenario config self s)
    as (self' & s1 & Hstart & _ & Hrange & _ & Hscores & _).
  destruct (final_games W ext (next_uuid (db s)) (round_number self)
              (snd (create_game (red_model ext) (blue_model ext) scenario (db s)))
              self' (db s1)
              (games (db s))
              (Games.mk (next_uuid (db s)) (red_model ext) (blue_model ext) scenario
                 0 0 None "running")
              eq_refl eq_refl Hscores)
    as (f & g & Hgames & _ & Hsame & _ & Hred & Hblue).
  eexists. eexists. exists (map f (games (db s))), g.
  split; [exact Hstart |]. cbn [db]. split; [exact Hgames |].
  cbn [Games.red_score Games.blue_score] in Hred, Hblue.
  destruct Hsame as (Hid & _). cbn [Games.game_id] in Hid.
  split; [exact Hid |]. lia.
Qed.

(** X16. When [check_game_over] never ends the game, a game plays every
    round up to [max_rounds]: the counter ends at [max_rounds] and one Round
    row is persisted for each number from the starting counter on. *)
Theorem never_over_plays_every_round (W : Type) (ext : Externals W)
    (scenario : string) (config : Config) (self : Self) (s : Store W) :
  (forall self0 st, check_game_over ext self0 st = false) ->
  round_number self <= match max_rounds config with Some n => n | None => 30 end ->
  exists self' s' new_rounds,
    start_game ext scenario config self s = (Returned tt, (self', s')) /\
    round_number self' = match max_rounds config with Some n => n | None => 30 end /\
    rounds (db s') = (rounds (db s) ++ new_rounds)%list /\
    map Rounds.round_number new_rounds
      = round_span (round_number self) (round_number self') /\
    List.length new_rounds = Z.to_nat (round_number self' - round_number self).
Proof.
  intros Hnever Hle.
  destruct (start_game_outcome W ext scenario config self s)
    as (self' & s1 & Hstart & _ & Hrange & Hgrown & _ & Hstop & _).
  destruct Hgrown as (new_rounds & new_events & Hrounds & _ & Hnums & _).
  assert (Hfinal : round_number self'
                   = match max_rounds config with Some n => n | None => 30 end).
  { destruct (Z_lt_dec (round_number self')
                (match max_rounds config with Some n => n | None => 30 end))
      as [Hlt | Hge]; [| lia].
    specialize (Hstop Hlt). rewrite Hnever in Hstop. discriminate. }
  eexists. eexists. exists new_rounds.
  split; [exact Hstart |]. split; [exact Hfinal |].
  cbn [db complete_game rounds]. split; [exact Hrounds |].
  split; [exact Hnums |].
  rewrite <- (length_map Rounds.round_number), Hnums. apply round_span_length.
Qed.

(** The test of the document: five rounds with [max_rounds] 5. *)
Lemma never_over_plays_every_round_witness :
  exists self' s' new_rounds,
    start_game Lab.lab "dvwa_scenario" (mkConfig (Some 5)) init Lab.fresh
      = (Returned tt, (self', s')) /\
    round_number self' = 5 /\
    rounds (db s') = (rounds (db Lab.fresh) ++ new_rounds)%list /\
    map Rounds.round_number new_rounds
      = round_span (round_number init) (round_number self') /\
    List.length new_rounds = Z.to_nat (round_number self' - round_number init).
Proof.
  apply (never_over_plays_every_round Lab.World Lab.lab "dvwa_scenario"
           (mkConfig (Some 5)) init Lab.fresh).
  - reflexivity.
  - cbn. lia.
Defined.

(** X17. The loop stops below [max_rounds] only on a round after which
    [check_game_over] holds, tested on the state that round's scoring left;
    and when [check_game_over] holds after the first round played, the loop
    ends with that round. *)
Theorem loop_stops_early_only_when_over (W : Type) (ext : Externals W)
    (max_rounds : Z) (self : Self) (s : Store W) :
  exists self' s',
    game_loop ext max_rounds self s = (Returned tt, (self', s')) /\
    (round_number self' < max_rounds -> check_game_over ext self' s' = true) /\
    (round_number self < max_rounds ->
     (forall st, check_game_over ext (next_round self) st = true) ->
     self' = next_round self).
Proof.
  destruct (game_loop_invariant W ext max_rounds (fun _ _ => True))
    with (n := Z.to_nat (max_rounds - round_number self)) (self := self) (s := s)
    as (self' & s' & Hloop & _ & Hstop & _); auto.
  exists self', s'. split; [exact Hloop |]. split; [exact Hstop |].
  intros Hlt Hover. rewrite LoopFacts.game_loop_step in Hloop.
  apply Z.ltb_lt in Hlt. rewrite Hlt in Hloop.
  destruct (LoopFacts.play_round_spec W ext (next_round self) s)
    as (rr & br & w & d1 & _ & Hplay).
  rewrite Hplay, Hover in Hloop. now injection Hloop as <- _.
Qed.

(** X18. When the round counter has already reached [max_rounds] - a
    [max_rounds] of 0 or less, or an orchestrator that has played that many
    rounds before - [start_game] plays no round: it creates the Game, sets
    up the scenario and marks the Game completed, with both scores 0 and no
    Round or Event added, and the counter stays where it was. *)
Theorem exhausted_counter_plays_nothing (W : Type) (ext : Externals W)
    (scenario : string) (config : Config) (self : Self) (s : Store W) :
  match max_rounds config with Some n => n | None => 30 end <= round_number self ->
  exists s' earlier,
    start_game ext scenario config self s
      = (Returned tt, (mkSelf (Some (next_uuid (db s))) (round_number self), s')) /\
    world s' = setup_scenario ext scenario (start_containers ext (world s)) /\
    rounds (db s') = rounds (db s) /\
    events (db s') = events (db s) /\
    command_log (db s') = command_log (db s) /\
    games (db s')
      = (earlier ++ [Games.mk (next_uuid (db s)) (red_model ext) (blue_model ext)
                       scenario 0 0 None "completed"])%list.
Proof.
  intros Hle.
  destruct (start_game_outcome W ext scenario config self s)
    as (self' & s1 & Hstart & _ & _ & _ & _ & _ & Hnone).
  destruct (Hnone Hle) as [-> ->]. cbn [world db] in Hstart.
  eexists. eexists. split; [exact Hstart |].
  cbn [world db complete_game create_game snd rounds events games command_log].
  repeat (split; [reflexivity |]).
  rewrite map_app. cbn [map Games.game_id same_game].
  rewrite Nat.eqb_refl. reflexivity.
Qed.

Lemma exhausted_counter_plays_nothing_witness :
  exists s' earlier,
    start_game Lab.lab "dvwa_scenario" (mkConfig (Some 0)) init Lab.fresh
      = (Returned tt, (mkSelf (Some 0%nat) 0, s')) /\
    world s' = [] /\
    rounds (db s') = [] /\
    events (db s') = [] /\
    command_log (db s') = [] /\
    games (db s')
      = (earlier ++ [Games.mk 0%nat "claude-sonnet-4.5" "claude-sonnet-4.5"
                       "dvwa_scenario" 0 0 None "completed"])%list.
Proof.
  apply (exhausted_counter_plays_nothing Lab.World Lab.lab "dvwa_scenario"
           (mkConfig (Some 0)) init Lab.fresh).
  cbn. lia.
Defined.

(** X19. A game started on a fresh orchestrator without a [max_rounds]
    setting plays at most 30 rounds, and every round it persists has a
    number inside one of the document's phase ranges. *)
Theorem default_game_stays_in_phase_table (W : Type) (ext : Externals W)
    (scenario : string) (s : Store W) :
  exists self' s' new_rounds,
    start_game ext scenario (mkConfig None) init s = (Returned tt, (self', s')) /\
    rounds (db s') = (rounds (db s) ++ new_rounds)%list /\
    round_number self' <= 30 /\
    Forall (fun r =>
              exists range,
                In range Phases.PHASE_TABLE /\
                Phases.covers (Rounds.round_number r) range = true) new_rounds.
Proof.
  destruct (start_game_outcome W ext scenario (mkConfig None) init s)
    as (self' & s1 & Hstart & _ & Hrange & Hgrown & _).
  destruct Hgrown as (new_rounds & new_events & Hrounds & _ & Hnums & _).
  cbn [max_rounds round_number init] in *.
  eexists. eexists. exists new_rounds.
  split; [exact Hstart |]. cbn [db complete_game rounds].
  split; [exact Hrounds |]. split; [lia |].
  apply Forall_forall. intros r Hin.
  assert (Hn : 0 < Rounds.round_number r <= round_number self').
  { apply round_span_in. rewrite <- Hnums. now apply in_map. }
  apply TablesFacts.round_in_some_range. lia.
Qed.

End MoreLoopFacts.

(* ===================================================================== *)
(** * Further properties: the agent's memory *)
(* ===================================================================== *)

Module MemoryFacts.
Import Dicts Game Notions.

(** X20. The red agent's memory is append-only and in order: after
    [update_memory] has been called for a list of turns, the memory is the
    old memory followed by one entry per turn, in the order of the turns,
    each holding the turn's action and result and flagged successful
    exactly when the result's exit code is 0. *)
Theorem memory_is_append_only (memory : list MemoryEntry)
    (turns : list (Decision.t * CommandResult)) :
  remember memory turns
  = (memory ++ map (fun turn : Decision.t * CommandResult =>
                      mkMemoryEntry (fst turn) (snd turn) (exit_code (snd turn) =? 0)%Z)
                 turns)%list /\
  List.length (remember memory turns)
  = (List.length memory + List.length turns)%nat /\
  List.length (filter m_success (remember memory turns))
  = (List.length (filter m_success memory)
     + List.length (filter (fun turn : Decision.t * CommandResult =>
                              (exit_code (snd turn) =? 0)%Z) turns))%nat.
Proof.
  assert (Heq : forall m,
            remember m turns
            = (m ++ map (fun turn : Decision.t * CommandResult =>
                           mkMemoryEntry (fst turn) (snd turn)
                             (exit_code (snd turn) =? 0)%Z) turns)%list).
  { unfold remember. induction turns as [|turn rest IH]; intros m; cbn [fold_left map].
    - now rewrite app_nil_r.
    - rewrite IH. unfold update_memory. now rewrite <- app_assoc. }
  split; [apply Heq |]. rewrite Heq. split.
  - now rewrite length_app, length_map.
  - rewrite filter_app, length_app. f_equal.
    clear Heq. induction turns as [|turn rest IH]; [reflexivity |].
    cbn [map filter m_success]. destruct (exit_code (snd turn) =? 0)%Z; cbn [List.length];
      now rewrite IH.
Qed.

End MemoryFacts.
